(** * Pyrlang [Process]: mailbox, selective receive, exit protocol

    A shallow embedding of [pyrlang/process.py].  The asyncio queues are
    FIFO lists (head = next item returned by [get]), the two monitor
    dictionaries are finite maps keyed by reference, the link set is a
    finite set, and every call made on a collaborator (the pattern
    matcher, the node, the loop task) is recorded in an effect trace so
    that "how many times" and "to whom" can be stated.

    Suspension points of the coroutines are explicit: [_receive] only
    yields at [await self.inbox_.get()] on an empty inbox, and what
    happens while it is suspended is given by a list of environment
    events (a batch of deliveries, or one tick of the clock). *)

From stdpp Require Import gmap strings list.

Set Default Proof Using "Type".

Section process.

(** Process identifiers and monitor references are opaque values of the
    [term] package; all the code needs is equality and hashing. *)
Context {Pid Reference : Type}.
Context `{Countable Pid} `{Countable Reference}.

(** [str(pid)], used by [Process.__repr__]. *)
Variable Pid_str : Pid → string.

(** ** Values *)

(** Python values that travel as messages and exit reasons.  [PyAtom] is
    an instance of [term.atom.Atom]; [PyStr] is a plain [str], which is
    not an [Atom] even when it spells the same name. *)
#[warnings="-register-all"]
Inductive term :=
| PyNone
| PyAtom (name : string)
| PyStr (s : string)
| PyInt (z : Z)
| PyPid (p : Pid)
| PyRef (r : Reference)
| PyTuple (items : list term).

Inductive exn :=
| CancelledError
| TimeoutError
| ValueError (msg : string)
| KeyError (key : Pid)
| AttributeError (msg : string)
| ProcessTimeoutError (msg : string)
| RuntimeError (msg : string)
| QueueEmpty.

(** Calls on collaborators, in program order. *)
Inductive effect :=
| MatchCall (msg : term)
| TaskCancel
| SendNowait (sender receiver : Pid) (message : term)
| SendLinkExitNotification (sender receiver : Pid) (reason : term)
| OnExitProcess (pid : Pid) (reason : term).

(** The result of [match(msg)] when it is truthy: an object with a
    [run] step, whose value [_receive] hands back. *)
Record Pattern := { run : term → term }.

(** A [pyrlang.match.Match] object: called on a message, it answers a
    falsy value ([None] here) or the pattern that matched. *)
Definition Matcher := term → option Pattern.

(** Modelled from the spec: the class [pyrlang.match.Match] is not part of
    this module; its default instance [Match()] accepts every message and
    its run step hands the message back. *)
Definition default_Match : Matcher := λ _, Some {| run := λ msg, msg |}.

(** The third argument of [receive]: [None], a value that is not
    callable, or a callable taking no argument. *)
Inductive py_callback :=
| CbNone
| CbValue (v : term)
| CbCallable (f : unit → term).

(** ** The process object *)

Record Process := {
  passive_ : bool;
  pid_ : Pid;
  inbox_ : list term;
  __tmp_inbox : list term;
  is_exiting_ : bool;
  _monitored_by : gmap Reference Pid;
  _monitors : gmap Reference Pid;
  _links : gset Pid;
  _match : Matcher
}.

Definition set_queues (p : Process) (inbox tmp : list term) : Process :=
  {| passive_ := passive_ p; pid_ := pid_ p;
     inbox_ := inbox; __tmp_inbox := tmp;
     is_exiting_ := is_exiting_ p;
     _monitored_by := _monitored_by p; _monitors := _monitors p;
     _links := _links p; _match := _match p |}.

Definition set_is_exiting (b : bool) (p : Process) : Process :=
  {| passive_ := passive_ p; pid_ := pid_ p;
     inbox_ := inbox_ p; __tmp_inbox := __tmp_inbox p;
     is_exiting_ := b;
     _monitored_by := _monitored_by p; _monitors := _monitors p;
     _links := _links p; _match := _match p |}.

Definition set_monitored_by (m : gmap Reference Pid) (p : Process) : Process :=
  {| passive_ := passive_ p; pid_ := pid_ p;
     inbox_ := inbox_ p; __tmp_inbox := __tmp_inbox p;
     is_exiting_ := is_exiting_ p;
     _monitored_by := m; _monitors := _monitors p;
     _links := _links p; _match := _match p |}.

Definition set_monitors (m : gmap Reference Pid) (p : Process) : Process :=
  {| passive_ := passive_ p; pid_ := pid_ p;
     inbox_ := inbox_ p; __tmp_inbox := __tmp_inbox p;
     is_exiting_ := is_exiting_ p;
     _monitored_by := _monitored_by p; _monitors := m;
     _links := _links p; _match := _match p |}.

Definition set_links (l : gset Pid) (p : Process) : Process :=
  {| passive_ := passive_ p; pid_ := pid_ p;
     inbox_ := inbox_ p; __tmp_inbox := __tmp_inbox p;
     is_exiting_ := is_exiting_ p;
     _monitored_by := _monitored_by p; _monitors := _monitors p;
     _links := l; _match := _match p |}.

(** [Process.__repr__]. *)
Definition repr (p : Process) : string :=
  "pyrlang.Process: " +:+ Pid_str (pid_ p).

(** ** Results and the effect monad *)

(** How a call ends: with a value, with an exception, or - for a
    coroutine - still suspended when the events run out. *)
Inductive outcome (A : Type) :=
| Returned (a : A)
| Raised (e : exn)
| Pending.
Global Arguments Returned {A} a.
Global Arguments Raised {A} e.
Global Arguments Pending {A}.

(** A method body: it reads and updates [self] and leaves a trace. *)
Definition M (A : Type) : Type := Process → outcome A * Process * list effect.

(** [after tr r]: the run [r], preceded by the effects [tr]. *)
Definition after {A} (tr : list effect) (r : outcome A * Process * list effect)
  : outcome A * Process * list effect :=
  (r.1.1, r.1.2, tr ++ r.2).

Definition ret {A} (a : A) : M A := λ p, (Returned a, p, []).

Definition bind {A B} (c : M A) (k : A → M B) : M B := λ p,
  match c p with
  | (Returned a, p1, tr1) => after tr1 (k a p1)
  | (Raised e, p1, tr1) => (Raised e, p1, tr1)
  | (Pending, p1, tr1) => (Pending, p1, tr1)
  end.

Definition raise {A} (e : exn) : M A := λ p, (Raised e, p, []).
Definition emit (e : effect) : M unit := λ p, (Returned (), p, [e]).
Definition modify (f : Process → Process) : M unit := λ p, (Returned (), f p, []).
Definition reads {A} (f : Process → A) : M A := λ p, (Returned (f p), p, []).

Notation "'let*' x ':=' c 'in' k" := (bind c (λ x, k))
  (at level 10, x name, c at level 100, k at level 200).
Notation "c '>>' k" := (bind c (λ _, k))
  (at level 100, right associativity).

(** [for x in xs: body(x)] *)
Fixpoint for_each {A} (xs : list A) (body : A → M unit) : M unit :=
  match xs with
  | [] => ret ()
  | x :: xs' => body x >> for_each xs' body
  end.

(** ** Mailbox and selective receive *)

(** [while not src.empty(): dst.put_nowait(src.get_nowait())]; the value
    is [dst] once [src] is empty. *)
Fixpoint drain (src dst : list term) : list term :=
  match src with
  | [] => dst
  | x :: src' => drain src' (dst ++ [x])
  end.

Definition _cleanup_inbox (p : Process) : Process :=
  let tmp1 := drain (inbox_ p) (__tmp_inbox p) in
  let inbox2 := drain tmp1 [] in
  set_queues p inbox2 [].

(** [handle_one_inbox_message] of the base class only logs. *)
Definition handle_one_inbox_message (msg : term) (p : Process) : Process := p.

Definition deliver_message (msg : term) (p : Process) : Process :=
  if passive_ p then handle_one_inbox_message msg p
  else set_queues p (inbox_ p ++ [msg]) (__tmp_inbox p).

Definition deliver_all (msgs : list term) (p : Process) : Process :=
  foldl (λ q msg, deliver_message msg q) p msgs.

(** The [while True] loop of [_receive], run until it returns or
    until [self.inbox_.get()] finds the inbox empty and suspends.
    [inbox] and [tmp] are the two queues, written back into [p] when
    the loop stops. *)
Fixpoint receive_loop (m : Matcher) (p : Process) (inbox tmp : list term)
  : outcome term * Process * list effect :=
  match inbox with
  | [] => (Pending, set_queues p [] tmp, [])
  | msg :: rest =>
      match m msg with
      | None => after [MatchCall msg] (receive_loop m p rest (tmp ++ [msg]))
      | Some matched_pattern =>
          (Returned (run matched_pattern msg),
           _cleanup_inbox (set_queues p rest tmp),
           [MatchCall msg])
      end
  end.

(** What the environment does while the coroutine is suspended: it
    delivers a batch of messages and the getter wakes up, or the clock
    advances by one unit. *)
Inductive event :=
| Delivered (msgs : list term)
| Tick.

(** [_receive] suspended in [await self.inbox_.get()].  [timer] is the
    deadline of an enclosing [asyncio.wait_for], if any: [Some k] expires
    at the [k+1]-th tick, and the coroutine is then cancelled where it
    waits, with both queues left as they are. *)
Fixpoint wait_inbox (m : Matcher) (timer : option nat) (p : Process)
    (evs : list event) : outcome term * Process * list effect :=
  match evs with
  | [] => (Pending, p, [])
  | Delivered msgs :: evs' =>
      let p1 := deliver_all msgs p in
      match receive_loop m p1 (inbox_ p1) (__tmp_inbox p1) with
      | (Pending, p2, tr) => after tr (wait_inbox m timer p2 evs')
      | finished => finished
      end
  | Tick :: evs' =>
      match timer with
      | None => wait_inbox m None p evs'
      | Some 0 => (Raised TimeoutError, p, [])
      | Some (S k) => wait_inbox m (Some k) p evs'
      end
  end.

(** [if not match: match = self._match] *)
Definition chosen_match (match_ : option Matcher) (p : Process) : Matcher :=
  match match_ with Some m => m | None => _match p end.

Definition _receive (match_ : option Matcher) (timer : option nat)
    (p : Process) (evs : list event) : outcome term * Process * list effect :=
  let m := chosen_match match_ p in
  match __tmp_inbox p with
  | _ :: _ => (Raised (ValueError "temporary inbox not empty"), p, [])
  | [] =>
      match receive_loop m p (inbox_ p) (__tmp_inbox p) with
      | (Pending, p1, tr) => after tr (wait_inbox m timer p1 evs)
      | finished => finished
      end
  end.

(** [receive(match, timeout, timeout_callback)].  A falsy [timeout]
    ([None] or [0]) means no deadline; [Some (S k)] is a deadline of
    [k+1] clock units. *)
Definition receive (match_ : option Matcher) (timeout : option nat)
    (timeout_callback : py_callback) (p : Process) (evs : list event)
  : outcome term * Process * list effect :=
  match timeout with
  | None | Some 0 => _receive match_ None p evs
  | Some (S k) =>
      match _receive match_ (Some k) p evs with
      | (Raised TimeoutError, p', tr) =>
          match timeout_callback with
          | CbCallable f => (Returned (f ()), p', tr)
          | _ =>
              let emsg := "receive in " +:+ repr p +:+ " timed out" in
              (Raised (ProcessTimeoutError emsg), p', tr)
          end
      | other => other
      end
  end.

(** ** Links and monitors *)

Definition add_link (pid : Pid) : M unit :=
  modify (λ p, set_links ({[pid]} ∪ _links p) p).

(** [self._links.remove(pid)]: [set.remove] raises [KeyError] when the
    element is not there. *)
Definition remove_link (pid : Pid) : M unit := λ p,
  if decide (pid ∈ _links p)
  then modify (set_links (_links p ∖ {[pid]})) p
  else raise (KeyError pid) p.

Definition add_monitor (pid : Pid) (ref : Reference) : M unit :=
  modify (λ p, set_monitors (<[ref := pid]> (_monitors p)) p).

Definition add_monitored_by (pid : Pid) (ref : Reference) : M unit :=
  modify (λ p, set_monitored_by (<[ref := pid]> (_monitored_by p)) p).

Definition remove_monitor (pid : Pid) (ref : Reference) : M unit :=
  let* existing := reads (λ p, _monitors p !! ref) in
  if decide (existing = Some pid)
  then modify (λ p, set_monitors (delete ref (_monitors p)) p)
  else ret ().

Definition remove_monitored_by (pid : Pid) (ref : Reference) : M unit :=
  let* existing := reads (λ p, _monitored_by p !! ref) in
  if decide (existing = Some pid)
  then modify (λ p, set_monitored_by (delete ref (_monitored_by p)) p)
  else ret ().

(** ** Exit protocol *)

(** [self._run_task.cancel()].  The constructor creates [_run_task] only
    under [if not self.passive_]; on a passive process the attribute
    lookup itself fails. *)
Definition run_task_cancel : M unit := λ p,
  if passive_ p
  then raise (AttributeError "'Process' object has no attribute '_run_task'") p
  else emit TaskCancel p.

Definition destroy : M unit := run_task_cancel.

(** [type(reason)] as [format] prints it. *)
Definition type_repr (t : term) : string :=
  match t with
  | PyNone => "<class 'NoneType'>"
  | PyAtom _ => "<class 'term.atom.Atom'>"
  | PyStr _ => "<class 'str'>"
  | PyInt _ => "<class 'int'>"
  | PyPid _ => "<class 'term.pid.Pid'>"
  | PyRef _ => "<class 'term.reference.Reference'>"
  | PyTuple _ => "<class 'tuple'>"
  end.

Definition down_msg (monitor_ref : Reference) (self_pid : Pid) (reason : term) : term :=
  PyTuple [PyAtom "DOWN"; PyRef monitor_ref; PyAtom "process"; PyPid self_pid; reason].

(** The dictionary is walked as [map_to_list] lists it; Python walks it
    in insertion order.  Nothing below depends on the order. *)
Definition _trigger_monitors (reason : term) : M unit :=
  let* self_pid := reads pid_ in
  let* items := reads (λ p, map_to_list (_monitored_by p)) in
  for_each items (λ item,
    emit (SendNowait self_pid item.2 (down_msg item.1 self_pid reason))).

(** [Atom] derives from [str], so [reason == 'normal'] compares names. *)
Definition _trigger_links (reason : term) : M unit :=
  match reason with
  | PyAtom name =>
      if String.eqb name "normal" then ret ()
      else
        let reason := if String.eqb name "kill" then PyAtom "killed" else reason in
        let* self_pid := reads pid_ in
        let* links := reads (λ p, elements (_links p)) in
        for_each links (λ link,
          emit (SendLinkExitNotification self_pid link reason))
  | _ => raise (AttributeError ("reason must be Atom, got " +:+ type_repr reason))
  end.

Definition _on_exit_signal (reason : term) : M unit :=
  let reason := match reason with PyNone => PyAtom "normal" | _ => reason end in
  run_task_cancel >>
  modify (set_is_exiting true) >>
  _trigger_monitors reason >>
  _trigger_links reason >>
  let* self_pid := reads pid_ in
  emit (OnExitProcess self_pid reason).

(** How [await self._run_task] ends for the wrapper.  Faults are
    instances of [Exception]; [CancelledError] is caught by its own
    clause, which comes first. *)
Inductive task_result :=
| TaskReturned
| TaskRaised (e : exn).

Definition run_wrapper (awaited : task_result) : M unit :=
  match awaited with
  | TaskReturned => ret ()
  | TaskRaised CancelledError =>
      let* exiting := reads is_exiting_ in
      if exiting then ret () else raise CancelledError
  | TaskRaised _ =>
      run_task_cancel >>
      _on_exit_signal (PyAtom "unhandledexception")
  end.

Definition is_Atom (t : term) : bool :=
  match t with PyAtom _ => true | _ => false end.

(** The [send_nowait] calls of one pass over [_monitored_by], and the
    [send_link_exit_notification] calls of one pass over [_links]. *)
Definition monitor_notifications (p : Process) (reason : term) : list effect :=
  map (λ item, SendNowait (pid_ p) item.2 (down_msg item.1 (pid_ p) reason))
      (map_to_list (_monitored_by p)).

Definition link_notifications (p : Process) (reason : term) : list effect :=
  map (λ link, SendLinkExitNotification (pid_ p) link reason)
      (elements (_links p)).

(** How many times the registry was told that the process exited. *)
Definition exit_cycles (tr : list effect) : nat :=
  length (omap (λ e, match e with OnExitProcess pid _ => Some pid | _ => None end) tr).

(** The messages handed to the matcher, in order. *)
Definition tests (tr : list effect) : list term :=
  omap (λ e, match e with MatchCall msg => Some msg | _ => None end) tr.

(** The messages tested in the run [later], past those already tested in
    its beginning [earlier]. *)
Definition tests_since (earlier later : list effect) : list term :=
  drop (length (tests earlier)) (tests later).

(** Messages delivered and clock units elapsed during a run of events. *)
Definition arrivals (evs : list event) : list term :=
  concat (omap (λ ev, match ev with Delivered msgs => Some msgs | Tick => None end) evs).

Definition ticks (evs : list event) : nat :=
  length (omap (λ ev, match ev with Tick => Some () | Delivered _ => None end) evs).

(** What a batch of deliveries adds to the inbox: nothing on a passive
    process, whose handler is called instead. *)
Definition queued (p : Process) (msgs : list term) : list term :=
  if passive_ p then [] else msgs.

(** The matcher answers a falsy value on [msg]. *)
Definition no_match (m : Matcher) (msg : term) : Prop := m msg = None.

(** What is left of a deadline after [n] clock units. *)
Definition timer_after (timer : option nat) (n : nat) : option nat :=
  (λ k, k - n) <$> timer.

(** The deadline of [receive(timeout=...)] has not expired after [evs]. *)
Definition deadline_not_reached (timeout : option nat) (evs : list event) : Prop :=
  match timeout with
  | Some (S k) => ticks evs ≤ k
  | _ => True
  end.

(** ** Draining, the message loop and exit requests *)

(** Python truthiness, as [if msg:] tests it.  An [Atom] is a [str], empty
    strings and tuples and the number zero are falsy, pids and references
    are plain objects. *)
Definition truthy (t : term) : bool :=
  match t with
  | PyNone => false
  | PyAtom name => negb (String.eqb name "")
  | PyStr s => negb (String.eqb s "")
  | PyInt z => negb (Z.eqb z 0)
  | PyPid _ => true
  | PyRef _ => true
  | PyTuple items => match items with [] => false | _ :: _ => true end
  end.

(** [handle_inbox], for a handler [h] standing for the (overridable)
    [handle_one_inbox_message].  [get_nowait] on an empty inbox raises
    [QueueEmpty], which ends the loop with the count.  The handler is
    called inside the same [try]: a [QueueEmpty] that it raises is caught
    by the same clause, after [n_handled] was incremented for its message;
    every other exception propagates.  The loop is [while True], so it is
    unrolled [fuel] times; [None] means that the unrolling was too short. *)
Fixpoint handle_inbox_loop (h : term → M unit) (fuel n_handled : nat) (p : Process)
  : option (outcome nat * Process * list effect) :=
  match fuel with
  | 0 => None
  | S fuel' =>
      match inbox_ p with
      | [] => Some (Returned n_handled, p, [])
      | msg :: rest =>
          match h msg (set_queues p rest (__tmp_inbox p)) with
          | (Returned _, p', tr) =>
              after tr <$> handle_inbox_loop h fuel' (n_handled + 1) p'
          | (Raised QueueEmpty, p', tr) => Some (Returned (n_handled + 1), p', tr)
          | (Raised e, p', tr) => Some (Raised e, p', tr)
          | (Pending, p', tr) => Some (Pending, p', tr)
          end
      end
  end.

Definition handle_inbox (h : term → M unit) (fuel : nat) (p : Process)
  : option (outcome nat * Process * list effect) :=
  handle_inbox_loop h fuel 0 p.

(** The handler of the base class, as a method body. *)
Definition base_handler (msg : term) : M unit :=
  modify (handle_one_inbox_message msg).

(** [process_loop], from the start of an iteration up to the point where
    [self.receive()] suspends on an empty inbox (outcome [Pending]), the
    loop ends or an exception escapes.  Nothing can be delivered in
    between: with the inbox not empty, [await self.receive()] does not
    yield.  [fuel] bounds the number of iterations. *)
Fixpoint process_loop (h : term → M unit) (fuel : nat) (p : Process)
  : option (outcome unit * Process * list effect) :=
  match fuel with
  | 0 => None
  | S fuel' =>
      if is_exiting_ p then Some (Returned (), p, [])
      else
        match receive None None CbNone p [] with
        | (Returned msg, p1, tr) =>
            if truthy msg then
              match h msg p1 with
              | (Returned _, p2, tr2) =>
                  after (tr ++ tr2) <$> process_loop h fuel' p2
              | (Raised e, p2, tr2) => Some (Raised e, p2, tr ++ tr2)
              | (Pending, p2, tr2) => Some (Pending, p2, tr ++ tr2)
              end
            else after tr <$> process_loop h fuel' p1
        | (Raised e, p1, tr) => Some (Raised e, p1, tr)
        | (Pending, p1, tr) => Some (Pending, p1, tr)
        end
  end.

(** The [_signals] queue holds [('exit', reason)] pairs.  It is kept
    beside the process record; [exit] appends to it and asks the node to
    wake the process up, [handle_signals] takes one pair off the front, or
    suspends on an empty queue, and runs the exit handler on its reason. *)
Inductive node_call :=
| SignalWakeUp (pid : Pid).

Definition exit (reason : term) (signals : list (term * term)) (p : Process)
  : list (term * term) * node_call :=
  (signals ++ [(PyStr "exit", reason)], SignalWakeUp (pid_ p)).

Definition handle_signals (signals : list (term * term)) (p : Process)
  : (outcome unit * Process * list effect) * list (term * term) :=
  match signals with
  | [] => ((Pending, p, []), [])
  | (_exit, reason) :: rest => (_on_exit_signal reason p, rest)
  end.

(** The handler returns on [msg], leaves the process as it finds it and
    makes the calls [calls]. *)
Definition handler_returns (h : term → M unit) (msg : term) (calls : list effect) : Prop :=
  ∀ q, h msg q = (Returned (), q, calls).

(** * Properties *)

(** ** Queue shuffling *)

Lemma drain_app (src dst : list term) : drain src dst = dst ++ src.
Proof.
  revert dst. induction src as [|x src IH]; intros dst; simpl.
  - by rewrite app_nil_r.
  - by rewrite IH, <- app_assoc.
Qed.

Lemma cleanup_inbox_queues (p : Process) :
  _cleanup_inbox p = set_queues p (__tmp_inbox p ++ inbox_ p) [].
Proof. unfold _cleanup_inbox. by rewrite !drain_app. Qed.

Lemma set_queues_same (p : Process) : set_queues p (inbox_ p) (__tmp_inbox p) = p.
Proof. by destruct p. Qed.

Lemma deliver_all_active (msgs : list term) (p : Process) :
  passive_ p = false →
  deliver_all msgs p = set_queues p (inbox_ p ++ msgs) (__tmp_inbox p).
Proof.
  revert p. induction msgs as [|msg msgs IH]; intros p Hact.
  - simpl. by rewrite app_nil_r, set_queues_same.
  - change (deliver_all (msg :: msgs) p)
      with (deliver_all msgs (deliver_message msg p)).
    unfold deliver_message. rewrite Hact, IH by done.
    unfold set_queues; simpl. by rewrite <- app_assoc.
Qed.

Lemma deliver_all_passive (msgs : list term) (p : Process) :
  passive_ p = true → deliver_all msgs p = p.
Proof.
  intros Hpas. induction msgs as [|msg msgs IH]; [done|].
  change (deliver_all (msg :: msgs) p)
    with (deliver_all msgs (deliver_message msg p)).
  unfold deliver_message. by rewrite Hpas.
Qed.

(** ** The scan *)

Lemma after_nil {A} (r : outcome A * Process * list effect) : after [] r = r.
Proof. by destruct r as [[??]?]. Qed.

Lemma after_after {A} (tr1 tr2 : list effect) (r : outcome A * Process * list effect) :
  after tr1 (after tr2 r) = after (tr1 ++ tr2) r.
Proof. unfold after; simpl. by rewrite app_assoc. Qed.

Lemma receive_loop_skip (m : Matcher) (p : Process) (pre rest tmp : list term) :
  Forall (no_match m) pre →
  receive_loop m p (pre ++ rest) tmp =
    after (map MatchCall pre) (receive_loop m p rest (tmp ++ pre)).
Proof.
  intros Hpre. revert tmp.
  induction Hpre as [|msg pre Hmsg _ IH]; intros tmp; simpl.
  - by rewrite app_nil_r, after_nil.
  - by rewrite Hmsg, IH, after_after, <- app_assoc.
Qed.

(** A scan that finds no match moves the whole inbox, in order, behind
    what the scan buffer already holds, and suspends. *)
Lemma receive_loop_exhausted (m : Matcher) (p : Process) (inbox tmp : list term) :
  Forall (no_match m) inbox →
  receive_loop m p inbox tmp =
    (Pending, set_queues p [] (tmp ++ inbox), map MatchCall inbox).
Proof.
  intros Hall. rewrite <- (app_nil_r inbox) at 1.
  rewrite receive_loop_skip by done. unfold after; simpl.
  by rewrite app_nil_r.
Qed.

(** A scan that meets its first match after [pre] hands back the run
    step's value and leaves [tmp ++ pre ++ post] in the inbox. *)
Lemma receive_loop_matched (m : Matcher) (p : Process)
    (pre post tmp : list term) (msg : term) (pat : Pattern) :
  Forall (no_match m) pre → m msg = Some pat →
  receive_loop m p (pre ++ msg :: post) tmp =
    (Returned (run pat msg), set_queues p (tmp ++ pre ++ post) [],
     map MatchCall (pre ++ [msg])).
Proof.
  intros Hpre Hmsg. rewrite receive_loop_skip by done. simpl.
  rewrite Hmsg, cleanup_inbox_queues. unfold after; simpl.
  by rewrite map_app, <- app_assoc.
Qed.

Lemma _receive_matched_in_inbox (m : Matcher) (timer : option nat) (p : Process)
    (evs : list event) (pre post : list term) (msg : term) (pat : Pattern) :
  __tmp_inbox p = [] → inbox_ p = pre ++ msg :: post →
  Forall (no_match m) pre → m msg = Some pat →
  _receive (Some m) timer p evs =
    (Returned (run pat msg), set_queues p (pre ++ post) [],
     map MatchCall (pre ++ [msg])).
Proof.
  intros Htmp Hin Hpre Hmsg. unfold _receive, chosen_match.
  rewrite Htmp, Hin. by rewrite (receive_loop_matched m p pre post [] msg pat).
Qed.

Lemma _receive_matched_on_arrival (m : Matcher) (timer : option nat) (p : Process)
    (evs : list event) (pre post : list term) (msg : term) (pat : Pattern) :
  passive_ p = false → __tmp_inbox p = [] → Forall (no_match m) (inbox_ p) →
  Forall (no_match m) pre → m msg = Some pat →
  _receive (Some m) timer p (Delivered (pre ++ msg :: post) :: evs) =
    (Returned (run pat msg), set_queues p (inbox_ p ++ pre ++ post) [],
     map MatchCall (inbox_ p ++ pre ++ [msg])).
Proof.
  intros Hact Htmp Hin Hpre Hmsg. unfold _receive, chosen_match.
  rewrite Htmp, receive_loop_exhausted by done.
  cbn [wait_inbox]. rewrite deliver_all_active by exact Hact.
  cbn [inbox_ __tmp_inbox set_queues app].
  rewrite (receive_loop_matched m _ pre post (inbox_ p) msg pat) by done.
  by rewrite !map_app.
Qed.

(** A [_receive] that returns a value does so with or without a deadline
    around it. *)
Lemma receive_returned (match_ : option Matcher) (timeout : option nat)
    (cb : py_callback) (p p' : Process) (evs : list event)
    (v : term) (tr : list effect) :
  (∀ timer, _receive match_ timer p evs = (Returned v, p', tr)) →
  receive match_ timeout cb p evs = (Returned v, p', tr).
Proof.
  intros Hrun. unfold receive. by destruct timeout as [[|k]|]; rewrite Hrun.
Qed.

(** ** Waiting on an empty inbox *)

Lemma deliver_all_queued (msgs : list term) (p : Process) :
  deliver_all msgs p = set_queues p (inbox_ p ++ queued p msgs) (__tmp_inbox p).
Proof.
  unfold queued. destruct (passive_ p) eqn:Hpas.
  - by rewrite deliver_all_passive, app_nil_r, set_queues_same.
  - by apply deliver_all_active.
Qed.

Lemma queued_app (p : Process) (xs ys : list term) :
  queued p (xs ++ ys) = queued p xs ++ queued p ys.
Proof. unfold queued. by destruct (passive_ p). Qed.

(** While nothing that arrives matches and the deadline is not reached,
    the suspended scan tests each queued arrival once, appends it to the
    scan buffer and goes back to waiting. *)
Lemma wait_inbox_skips (m : Matcher) (pre evs : list event) :
  ∀ (timer : option nat) (p : Process),
  inbox_ p = [] →
  Forall (no_match m) (queued p (arrivals pre)) →
  (∀ k, timer = Some k → ticks pre ≤ k) →
  wait_inbox m timer p (pre ++ evs) =
    after (map MatchCall (queued p (arrivals pre)))
      (wait_inbox m (timer_after timer (ticks pre))
         (set_queues p [] (__tmp_inbox p ++ queued p (arrivals pre))) evs).
Proof.
  induction pre as [|ev pre IH]; intros timer p Hin Hno Hdl.
  - assert (Hq : queued p (arrivals []) = []) by (unfold queued; by destruct (passive_ p)).
    rewrite Hq, app_nil_r, after_nil. simpl.
    rewrite <- Hin, set_queues_same.
    replace (timer_after timer (ticks [])) with timer; [done|].
    destruct timer as [k|]; [|done]. simpl. f_equal. unfold ticks; simpl. lia.
  - destruct ev as [msgs|].
    + change (arrivals (Delivered msgs :: pre)) with (msgs ++ arrivals pre) in *.
      change (ticks (Delivered msgs :: pre)) with (ticks pre) in *.
      rewrite queued_app in *. apply Forall_app in Hno as [Hno1 Hno2].
      cbn [app wait_inbox]. rewrite deliver_all_queued, Hin.
      cbn [inbox_ __tmp_inbox set_queues app].
      rewrite receive_loop_exhausted by done.
      rewrite (IH timer) by done.
      rewrite after_after, map_app.
      cbn [inbox_ __tmp_inbox set_queues]. unfold queued at 4 5.
      cbn [passive_]. fold (queued p (arrivals pre)).
      by rewrite <- app_assoc.
    + change (arrivals (Tick :: pre)) with (arrivals pre) in *.
      change (ticks (Tick :: pre)) with (S (ticks pre)) in *.
      cbn [app wait_inbox]. destruct timer as [[|k]|].
      * specialize (Hdl 0 eq_refl). lia.
      * rewrite (IH (Some k)); [done..|].
        intros k' [= <-]. specialize (Hdl (S k) eq_refl). lia.
      * by rewrite (IH None).
Qed.

(** A scan that has exhausted the inbox and then sees only arrivals that
    do not match is still suspended, with every message it has seen in
    the scan buffer. *)
Lemma _receive_still_waiting (match_ : option Matcher) (timer : option nat)
    (p : Process) (pre evs : list event) :
  let m := chosen_match match_ p in
  let skipped := inbox_ p ++ queued p (arrivals pre) in
  __tmp_inbox p = [] →
  Forall (no_match m) skipped →
  (∀ k, timer = Some k → ticks pre ≤ k) →
  _receive match_ timer p (pre ++ evs) =
    after (map MatchCall skipped)
      (wait_inbox m (timer_after timer (ticks pre)) (set_queues p [] skipped) evs).
Proof.
  intros m skipped Htmp Hno Hdl. apply Forall_app in Hno as [Hno1 Hno2].
  unfold _receive. fold m. rewrite Htmp.
  rewrite receive_loop_exhausted by done.
  rewrite (wait_inbox_skips m pre evs timer) by done.
  rewrite after_after. unfold skipped. by rewrite map_app.
Qed.

Lemma _receive_timed_out (match_ : option Matcher) (k : nat)
    (p : Process) (pre rest : list event) :
  let m := chosen_match match_ p in
  let skipped := inbox_ p ++ queued p (arrivals pre) in
  __tmp_inbox p = [] →
  Forall (no_match m) skipped →
  ticks pre = k →
  _receive match_ (Some k) p (pre ++ Tick :: rest) =
    (Raised TimeoutError, set_queues p [] skipped, map MatchCall skipped).
Proof.
  intros m skipped Htmp Hno Hk.
  rewrite _receive_still_waiting; [|done..|intros k' [= <-]; lia].
  fold m skipped. rewrite Hk. simpl. rewrite Nat.sub_diag.
  unfold after; simpl. by rewrite app_nil_r.
Qed.

(** ** Exit protocol *)

Lemma for_each_emit {A} (xs : list A) (f : A → effect) (p : Process) :
  for_each xs (λ x, emit (f x)) p = (Returned (), p, map f xs).
Proof.
  induction xs as [|x xs IH]; [done|].
  cbn [for_each]. unfold bind, emit at 1. by rewrite IH.
Qed.

Lemma _trigger_monitors_run (reason : term) (p : Process) :
  _trigger_monitors reason p = (Returned (), p, monitor_notifications p reason).
Proof.
  unfold _trigger_monitors, bind, reads. by rewrite for_each_emit.
Qed.

Lemma _trigger_links_normal (p : Process) :
  _trigger_links (PyAtom "normal") p = (Returned (), p, []).
Proof. done. Qed.

Lemma _trigger_links_run (name : string) (p : Process) :
  name ≠ "normal" →
  _trigger_links (PyAtom name) p =
    (Returned (), p,
     link_notifications p
       (if String.eqb name "kill" then PyAtom "killed" else PyAtom name)).
Proof.
  intros Hname. unfold _trigger_links.
  destruct (String.eqb_spec name "normal") as [->|_]; [done|].
  unfold bind, reads. by rewrite for_each_emit.
Qed.

Lemma _trigger_links_not_atom (reason : term) (p : Process) :
  is_Atom reason = false →
  _trigger_links reason p =
    (Raised (AttributeError ("reason must be Atom, got " +:+ type_repr reason)),
     p, []).
Proof. by destruct reason. Qed.

Lemma _on_exit_signal_atom (name : string) (p : Process) :
  passive_ p = false → name ≠ "normal" →
  _on_exit_signal (PyAtom name) p =
    (Returned (), set_is_exiting true p,
     TaskCancel :: monitor_notifications p (PyAtom name)
       ++ link_notifications p
            (if String.eqb name "kill" then PyAtom "killed" else PyAtom name)
       ++ [OnExitProcess (pid_ p) (PyAtom name)]).
Proof.
  intros Hact Hname. unfold _on_exit_signal, bind at 1, run_task_cancel.
  rewrite Hact. unfold emit at 1, bind at 1, modify.
  unfold bind at 1. rewrite _trigger_monitors_run.
  unfold bind at 1. rewrite _trigger_links_run by done.
  unfold bind, reads, emit, after. simpl. reflexivity.
Qed.

Lemma exit_cycles_app (tr1 tr2 : list effect) :
  exit_cycles (tr1 ++ tr2) = exit_cycles tr1 + exit_cycles tr2.
Proof. unfold exit_cycles. by rewrite omap_app, length_app. Qed.

Lemma exit_cycles_monitor_notifications (p : Process) (reason : term) :
  exit_cycles (monitor_notifications p reason) = 0.
Proof.
  unfold exit_cycles, monitor_notifications.
  by induction (map_to_list (_monitored_by p)).
Qed.

Lemma exit_cycles_link_notifications (p : Process) (reason : term) :
  exit_cycles (link_notifications p reason) = 0.
Proof.
  unfold exit_cycles, link_notifications.
  by induction (elements (_links p)).
Qed.

Lemma monitor_notifications_NoDup (p : Process) (reason : term) :
  NoDup (monitor_notifications p reason).
Proof.
  unfold monitor_notifications. apply NoDup_fmap_2_strong.
  - intros [r1 o1] [r2 o2] _ _ [= -> ->]. done.
  - apply NoDup_map_to_list.
Qed.

Lemma link_notifications_NoDup (p : Process) (reason : term) :
  NoDup (link_notifications p reason).
Proof.
  unfold link_notifications. apply NoDup_fmap_2_strong.
  - by intros l1 l2 _ _ [= ->].
  - apply NoDup_elements.
Qed.

Lemma monitor_notified (p : Process) (reason : term) (ref : Reference) (owner : Pid) :
  _monitored_by p !! ref = Some owner →
  SendNowait (pid_ p) owner (down_msg ref (pid_ p) reason)
    ∈ monitor_notifications p reason.
Proof.
  intros Hm. unfold monitor_notifications.
  apply (list_elem_of_fmap_2
    (λ item, SendNowait (pid_ p) item.2 (down_msg item.1 (pid_ p) reason))
    _ (ref, owner)).
  by apply elem_of_map_to_list.
Qed.

Lemma link_notified (p : Process) (reason : term) (link : Pid) :
  link ∈ _links p →
  SendLinkExitNotification (pid_ p) link reason ∈ link_notifications p reason.
Proof.
  intros Hl. unfold link_notifications.
  apply (list_elem_of_fmap_2 (λ l, SendLinkExitNotification (pid_ p) l reason)).
  by apply elem_of_elements.
Qed.

Lemma monitor_notifications_no_link_exit (p : Process) (reason reason' : term)
    (sender receiver : Pid) :
  SendLinkExitNotification sender receiver reason' ∉ monitor_notifications p reason.
Proof.
  unfold monitor_notifications. intros Hin.
  apply list_elem_of_fmap in Hin as (item & Heq & _). done.
Qed.

(** ** Registry updates *)

Lemma remove_monitor_mismatch (pid : Pid) (ref : Reference) (p : Process) :
  _monitors p !! ref ≠ Some pid → remove_monitor pid ref p = (Returned (), p, []).
Proof.
  intros Hne. unfold remove_monitor, bind, reads.
  by destruct (decide (_monitors p !! ref = Some pid)).
Qed.

Lemma remove_monitored_by_mismatch (pid : Pid) (ref : Reference) (p : Process) :
  _monitored_by p !! ref ≠ Some pid →
  remove_monitored_by pid ref p = (Returned (), p, []).
Proof.
  intros Hne. unfold remove_monitored_by, bind, reads.
  by destruct (decide (_monitored_by p !! ref = Some pid)).
Qed.

(** C7: [remove_monitor(pid, ref)] deletes the entry of [ref] from
    [_monitors] exactly when that entry is [pid]; when the entry is another
    identity, or [ref] has no entry, the call returns with the process, and
    so the map, unchanged.  [remove_monitored_by] does the same on
    [_monitored_by]. *)
Theorem remove_monitor_only_on_match (pid : Pid) (ref : Reference) (p : Process) :
  (_monitors p !! ref = Some pid →
     remove_monitor pid ref p =
       (Returned (), set_monitors (delete ref (_monitors p)) p, []))
  ∧ (_monitors p !! ref ≠ Some pid →
     remove_monitor pid ref p = (Returned (), p, []))
  ∧ (_monitored_by p !! ref = Some pid →
     remove_monitored_by pid ref p =
       (Returned (), set_monitored_by (delete ref (_monitored_by p)) p, []))
  ∧ (_monitored_by p !! ref ≠ Some pid →
     remove_monitored_by pid ref p = (Returned (), p, [])).
Proof.
  split_and!.
  - intros Heq. unfold remove_monitor, bind, reads.
    by destruct (decide (_monitors p !! ref = Some pid)).
  - apply remove_monitor_mismatch.
  - intros Heq. unfold remove_monitored_by, bind, reads.
    by destruct (decide (_monitored_by p !! ref = Some pid)).
  - apply remove_monitored_by_mismatch.
Qed.

(** C10: [remove_link(pid)] with [pid] not in [_links] raises [KeyError]
    and leaves the process, and so the link set, unchanged, whereas
    [remove_monitor] with an identity that is not the stored one returns
    normally without a change. *)
Theorem remove_link_absent_raises (pid : Pid) (p : Process) :
  pid ∉ _links p →
  remove_link pid p = (Raised (KeyError pid), p, [])
  ∧ ∀ ref, _monitors p !! ref ≠ Some pid →
      remove_monitor pid ref p = (Returned (), p, []).
Proof.
  intros Habsent. split.
  - unfold remove_link. by destruct (decide (pid ∈ _links p)).
  - intros ref. apply remove_monitor_mismatch.
Qed.

(** With reason [Atom('normal')], [_trigger_links] returns without a
    single call, while [_trigger_monitors] sends, for any reason, one
    [(DOWN, ref, process, pid, reason)] tuple to the owner of every entry of
    [_monitored_by].  The exit handler of a process that has a loop task
    therefore leaves this trace for [normal]: the task is cancelled, every
    monitor owner is sent its DOWN tuple, no link-exit notification is sent,
    and the registry is told of the exit. *)
Theorem normal_exit_reaches_monitors_not_links (p : Process) :
  _trigger_links (PyAtom "normal") p = (Returned (), p, [])
  ∧ (∀ reason, _trigger_monitors reason p =
       (Returned (), p, monitor_notifications p reason))
  ∧ (∀ reason ref owner, _monitored_by p !! ref = Some owner →
       SendNowait (pid_ p) owner (down_msg ref (pid_ p) reason)
         ∈ monitor_notifications p reason)
  ∧ (passive_ p = false →
       _on_exit_signal (PyAtom "normal") p =
         (Returned (), set_is_exiting true p,
          TaskCancel :: monitor_notifications p (PyAtom "normal")
            ++ [OnExitProcess (pid_ p) (PyAtom "normal")])
       ∧ (∀ sender receiver reason,
            SendLinkExitNotification sender receiver reason
              ∉ (_on_exit_signal (PyAtom "normal") p).2)
       ∧ (∀ ref owner, _monitored_by p !! ref = Some owner →
            SendNowait (pid_ p) owner (down_msg ref (pid_ p) (PyAtom "normal"))
              ∈ (_on_exit_signal (PyAtom "normal") p).2)).
Proof.
  split_and!; [done|intros; apply _trigger_monitors_run
              |intros; by apply monitor_notified|].
  intros Hact.
  assert (Hrun : _on_exit_signal (PyAtom "normal") p =
      (Returned (), set_is_exiting true p,
       TaskCancel :: monitor_notifications p (PyAtom "normal")
         ++ [OnExitProcess (pid_ p) (PyAtom "normal")])).
  { unfold _on_exit_signal, bind at 1, run_task_cancel.
    rewrite Hact. unfold emit at 1, bind at 1, modify.
    unfold bind at 1. rewrite _trigger_monitors_run.
    unfold bind at 1. rewrite _trigger_links_normal.
    unfold bind, reads, emit, after. simpl. reflexivity. }
  split_and!; [done|..]; rewrite Hrun; simpl.
  - intros sender receiver reason Hin.
    apply elem_of_cons in Hin as [?|Hin]; [done|].
    apply elem_of_app in Hin as [Hin|Hin].
    + by apply monitor_notifications_no_link_exit in Hin.
    + by apply list_elem_of_singleton in Hin.
  - intros ref owner Hm. apply elem_of_cons; right.
    apply elem_of_app; left. by apply monitor_notified.
Qed.

(** [_trigger_links] with reason [Atom('kill')] sends every member of
    [_links] a link-exit notification whose reason is [Atom('killed')], and
    with a reason that is not an [Atom] it raises [AttributeError] before
    any notification is sent.  The exit handler of a process that has a
    loop task, run with [kill], therefore gives [killed] to the linked peers
    and [kill] to the monitors and the registry; given a reason that is not
    an [Atom] it stops at the link step, after the monitors have been
    told. *)
Theorem kill_exit_reaches_links_as_killed (p : Process) :
  _trigger_links (PyAtom "kill") p =
    (Returned (), p, link_notifications p (PyAtom "killed"))
  ∧ (∀ link, link ∈ _links p →
       SendLinkExitNotification (pid_ p) link (PyAtom "killed")
         ∈ link_notifications p (PyAtom "killed"))
  ∧ (∀ reason, is_Atom reason = false →
       _trigger_links reason p =
         (Raised (AttributeError
                    ("reason must be Atom, got " +:+ type_repr reason)), p, []))
  ∧ (passive_ p = false →
       _on_exit_signal (PyAtom "kill") p =
         (Returned (), set_is_exiting true p,
          TaskCancel :: monitor_notifications p (PyAtom "kill")
            ++ link_notifications p (PyAtom "killed")
            ++ [OnExitProcess (pid_ p) (PyAtom "kill")])
       ∧ (∀ link, link ∈ _links p →
            SendLinkExitNotification (pid_ p) link (PyAtom "killed")
              ∈ (_on_exit_signal (PyAtom "kill") p).2)
       ∧ (∀ reason, is_Atom reason = false → reason ≠ PyNone →
            _on_exit_signal reason p =
              (Raised (AttributeError
                         ("reason must be Atom, got " +:+ type_repr reason)),
               set_is_exiting true p,
               TaskCancel :: monitor_notifications p reason))).
Proof.
  split_and!; [by rewrite _trigger_links_run|intros; by apply link_notified
              |intros; by apply _trigger_links_not_atom|].
  intros Hact.
  pose proof (_on_exit_signal_atom "kill" p Hact) as Hrun.
  simpl in Hrun. specialize (Hrun ltac:(done)).
  split_and!; [done|..].
  - intros link Hl. rewrite Hrun. simpl.
    apply elem_of_cons; right. apply elem_of_app; right.
    apply elem_of_app; left. by apply link_notified.
  - intros reason Hna Hnone.
    assert (Hsame : match reason with PyNone => PyAtom "normal" | _ => reason end
                    = reason) by (by destruct reason).
    unfold _on_exit_signal. rewrite Hsame.
    unfold bind at 1, run_task_cancel.
    rewrite Hact. unfold emit at 1, bind at 1, modify.
    unfold bind at 1. rewrite _trigger_monitors_run.
    unfold bind at 1. rewrite _trigger_links_not_atom by done.
    unfold after. simpl. by rewrite app_nil_r.
Qed.

(** C2 (amended): when the loop task ends with an exception other than a
    cancellation, the wrapper cancels the task and runs the exit handler
    with reason [Atom('unhandledexception')].  That is one exit cycle: every
    entry of [_monitored_by] is sent one DOWN tuple, every member of
    [_links] one link-exit notification, the registry is told once and
    [is_exiting_] is set.  When the task is cancelled while [is_exiting_]
    is false, the wrapper raises the cancellation again and nothing of the
    exit protocol runs; when [is_exiting_] is true it returns quietly. *)
Theorem wrapper_fault_runs_exit_once (e : exn) (p : Process) :
  passive_ p = false → e ≠ CancelledError →
  let reason := PyAtom "unhandledexception" in
  run_wrapper (TaskRaised e) p =
    (Returned (), set_is_exiting true p,
     [TaskCancel; TaskCancel]
       ++ monitor_notifications p reason
       ++ link_notifications p reason
       ++ [OnExitProcess (pid_ p) reason])
  ∧ exit_cycles (run_wrapper (TaskRaised e) p).2 = 1
  ∧ NoDup (monitor_notifications p reason)
  ∧ NoDup (link_notifications p reason)
  ∧ run_wrapper (TaskRaised CancelledError) p =
      if is_exiting_ p then (Returned (), p, [])
      else (Raised CancelledError, p, []).
Proof.
  intros Hact He reason.
  assert (Hrun : run_wrapper (TaskRaised e) p =
    (Returned (), set_is_exiting true p,
     [TaskCancel; TaskCancel]
       ++ monitor_notifications p reason
       ++ link_notifications p reason
       ++ [OnExitProcess (pid_ p) reason])).
  { assert (Hbody : run_wrapper (TaskRaised e) p =
      (run_task_cancel >> _on_exit_signal reason) p) by (by destruct e).
    rewrite Hbody. unfold bind at 1, run_task_cancel at 1, reason.
    rewrite Hact. unfold emit at 1. cbv beta iota.
    by rewrite (_on_exit_signal_atom "unhandledexception" p Hact). }
  split_and!.
  - done.
  - rewrite Hrun. cbn [snd]. rewrite !exit_cycles_app.
    by rewrite exit_cycles_monitor_notifications, exit_cycles_link_notifications.
  - apply monitor_notifications_NoDup.
  - apply link_notifications_NoDup.
  - unfold run_wrapper, bind, reads. by destruct (is_exiting_ p).
Qed.

(** C8: a [receive] entered while the scan buffer still holds messages
    raises [ValueError] at once: whatever the matcher, the timeout, the
    callback and the later events, no message is taken from the inbox, the
    matcher is never called and the process is left as it was. *)
Theorem receive_rejects_leftover_scan_buffer
    (match_ : option Matcher) (timeout : option nat) (cb : py_callback)
    (p : Process) (evs : list event) :
  __tmp_inbox p ≠ [] →
  receive match_ timeout cb p evs =
    (Raised (ValueError "temporary inbox not empty"), p, []).
Proof.
  intros Hbuf. unfold receive, _receive.
  destruct (__tmp_inbox p) as [|x tmp]; [done|].
  by destruct timeout as [[|k]|].
Qed.

(** C9: a [receive] with a deadline of [k+1] clock units, entered with an
    empty scan buffer, during which no message that reaches the scan
    matches.  At the [k+1]-th tick the call ends: with the value of
    [timeout_callback()] when that argument is callable, and otherwise
    ([None] or any value that is not callable) with a
    [ProcessTimeoutError] whose text names the process, "receive in
    <repr of the process> timed out". *)
Theorem receive_timeout_outcome
    (match_ : option Matcher) (k : nat) (cb : py_callback)
    (p : Process) (pre rest : list event) :
  __tmp_inbox p = [] →
  Forall (no_match (chosen_match match_ p)) (inbox_ p ++ queued p (arrivals pre)) →
  ticks pre = k →
  let skipped := inbox_ p ++ queued p (arrivals pre) in
  receive match_ (Some (S k)) cb p (pre ++ Tick :: rest) =
    (match cb with
     | CbCallable f => Returned (f ())
     | _ => Raised (ProcessTimeoutError
                      ("receive in " +:+ repr p +:+ " timed out"))
     end,
     set_queues p [] skipped, map MatchCall skipped).
Proof.
  intros Htmp Hno Hk skipped. unfold receive.
  rewrite _receive_timed_out by done. by destruct cb.
Qed.

(** C3 (amended): a selective receive on an active process whose scan has
    exhausted the inbox, and then every later arrival [pre], without a
    match is suspended with all those messages in the scan buffer, each
    tested once.  When a new message then arrives, the matcher is called
    on that message only: the skipped messages are not tested again.
    They stay in the scan buffer if the new message does not match, and
    go back to the inbox, in order, if it does. *)
Theorem scan_resumes_with_new_arrival_only
    (m : Matcher) (timeout : option nat) (cb : py_callback)
    (p : Process) (pre : list event) (new : term) :
  passive_ p = false → __tmp_inbox p = [] →
  Forall (no_match m) (inbox_ p ++ arrivals pre) →
  deadline_not_reached timeout pre →
  let skipped := inbox_ p ++ arrivals pre in
  receive (Some m) timeout cb p pre =
    (Pending, set_queues p [] skipped, map MatchCall skipped)
  ∧ receive (Some m) timeout cb p (pre ++ [Delivered [new]]) =
    (match m new with Some pat => Returned (run pat new) | None => Pending end,
     match m new with
     | Some _ => set_queues p skipped []
     | None => set_queues p [] (skipped ++ [new])
     end,
     map MatchCall skipped ++ [MatchCall new]).
Proof.
  intros Hact Htmp Hno Hdl skipped.
  assert (Hq : queued p (arrivals pre) = arrivals pre)
    by (unfold queued; by rewrite Hact).
  assert (Hwait : ∀ timer evs, (∀ k, timer = Some k → ticks pre ≤ k) →
    _receive (Some m) timer p (pre ++ evs) =
      after (map MatchCall skipped)
        (wait_inbox m (timer_after timer (ticks pre)) (set_queues p [] skipped) evs)).
  { intros timer evs Ht.
    rewrite _receive_still_waiting; rewrite ?Hq; done. }
  assert (Hnew : ∀ timer,
    wait_inbox m timer (set_queues p [] skipped) [Delivered [new]] =
      (match m new with Some pat => Returned (run pat new) | None => Pending end,
       match m new with
       | Some _ => set_queues p skipped []
       | None => set_queues p [] (skipped ++ [new])
       end, [MatchCall new])).
  { intros timer. cbn [wait_inbox]. rewrite deliver_all_active by exact Hact.
    cbn [inbox_ __tmp_inbox set_queues app receive_loop].
    destruct (m new) as [pat|]; [|done].
    rewrite cleanup_inbox_queues. cbn [inbox_ __tmp_inbox set_queues].
    by rewrite app_nil_r. }
  assert (Hnone : ∀ k, None = Some k → ticks pre ≤ k) by done.
  split.
  - rewrite <- (app_nil_r pre). unfold receive.
    destruct timeout as [[|k]|].
    + rewrite Hwait by done. unfold after; simpl. by rewrite app_nil_r.
    + rewrite Hwait by (intros k' [= <-]; exact Hdl).
      unfold after; simpl. by rewrite app_nil_r.
    + rewrite Hwait by done. unfold after; simpl. by rewrite app_nil_r.
  - unfold receive. destruct timeout as [[|k]|].
    + rewrite Hwait, Hnew by done. unfold after; simpl. by destruct (m new).
    + rewrite Hwait, Hnew by (intros k' [= <-]; exact Hdl).
      unfold after; simpl. by destruct (m new).
    + rewrite Hwait, Hnew by done. unfold after; simpl. by destruct (m new).
Qed.

(** C1: three messages [A], [B], [C] delivered in that order to an
    active process with an empty mailbox, and a matcher that rejects [A]
    and [B] and accepts [C] with pattern [pat].  The receive tests [A],
    [B], [C] once each, hands back the run step of [pat] on [C] (the
    message [C] itself when the run step hands the message back, as the
    default pattern does) and leaves exactly [A; B] in the inbox with the
    scan buffer empty.  When [C] arrives after the scan has started,
    together with later messages, the skipped [A; B] are put back in front
    of those later messages. *)
Theorem selective_receive_restores_skipped
    (m : Matcher) (pat : Pattern) (A B C : term) (later : list term)
    (timeout : option nat) (cb : py_callback) (p : Process) (evs : list event) :
  passive_ p = false → inbox_ p = [] → __tmp_inbox p = [] →
  m A = None → m B = None → m C = Some pat →
  receive (Some m) timeout cb (deliver_all [A; B; C] p) evs =
    (Returned (run pat C), set_queues p [A; B] [],
     [MatchCall A; MatchCall B; MatchCall C])
  ∧ receive (Some m) timeout cb (deliver_all [A; B] p)
      (Delivered (C :: later) :: evs) =
    (Returned (run pat C), set_queues p ([A; B] ++ later) [],
     [MatchCall A; MatchCall B; MatchCall C]).
Proof.
  intros Hact Hin Htmp HA HB HC.
  assert (Hskip : Forall (no_match m) [A; B]) by (by repeat constructor).
  split; apply receive_returned; intros timer.
  - rewrite deliver_all_active, Hin, Htmp by done.
    exact (_receive_matched_in_inbox m timer (set_queues p [A; B; C] []) evs
             [A; B] [] C pat eq_refl eq_refl Hskip HC).
  - rewrite deliver_all_active, Hin, Htmp by done.
    exact (_receive_matched_on_arrival m timer (set_queues p [A; B] []) evs
             [] later C pat Hact eq_refl Hskip (Forall_nil_2 _) HC).
Qed.

(** * Further properties of the mailbox *)

(** [_cleanup_inbox] puts the scan buffer back in front of what is still in
    the inbox, both in their order, and empties the scan buffer; a second
    call changes nothing, and with an empty scan buffer the inbox is left as
    it is. *)
Theorem cleanup_inbox_puts_skipped_first (p : Process) :
  inbox_ (_cleanup_inbox p) = __tmp_inbox p ++ inbox_ p
  ∧ __tmp_inbox (_cleanup_inbox p) = []
  ∧ _cleanup_inbox (_cleanup_inbox p) = _cleanup_inbox p
  ∧ (__tmp_inbox p = [] → _cleanup_inbox p = p).
Proof.
  rewrite !cleanup_inbox_queues. split_and!; try done.
  intros Htmp. rewrite Htmp. cbn [app]. rewrite <- Htmp. apply set_queues_same.
Qed.

(** Messages delivered one after the other to an active process are
    appended to the inbox in the order of the calls, behind what is
    already queued; on a passive process the handler of the base class is
    called instead and neither queue changes. *)
Theorem deliver_message_appends_in_order (msgs : list term) (p : Process) :
  (passive_ p = false →
     inbox_ (deliver_all msgs p) = inbox_ p ++ msgs
     ∧ __tmp_inbox (deliver_all msgs p) = __tmp_inbox p)
  ∧ (passive_ p = true → deliver_all msgs p = p).
Proof.
  split.
  - intros Hact. by rewrite deliver_all_active.
  - apply deliver_all_passive.
Qed.

(** The first message of the inbox that the matcher accepts is the one
    consumed, however many messages come before or after it: [receive]
    returns the run step of its pattern, the messages before it (tested once
    each, in order) and the messages after it (not tested) stay in the
    inbox in their order, and the scan buffer is empty.  With the matcher of
    the process itself and a first message that it accepts, this is plain
    first-in first-out consumption. *)
Theorem receive_takes_first_match
    (match_ : option Matcher) (pat : Pattern) (pre post : list term) (msg : term)
    (timeout : option nat) (cb : py_callback) (p : Process) (evs : list event) :
  __tmp_inbox p = [] → inbox_ p = pre ++ msg :: post →
  Forall (no_match (chosen_match match_ p)) pre →
  chosen_match match_ p msg = Some pat →
  receive match_ timeout cb p evs =
    (Returned (run pat msg), set_queues p (pre ++ post) [],
     map MatchCall (pre ++ [msg])).
Proof.
  intros Htmp Hin Hpre Hmsg. apply receive_returned. intros timer.
  unfold _receive. rewrite Htmp, Hin.
  by rewrite (receive_loop_matched _ p pre post [] msg pat).
Qed.

Lemma queued_set_queues (p : Process) (inbox tmp msgs : list term) :
  queued (set_queues p inbox tmp) msgs = queued p msgs.
Proof. done. Qed.

(** Either nothing in a list matches, or the list splits at its first
    match. *)
Lemma first_match_split (m : Matcher) (msgs : list term) :
  Forall (no_match m) msgs
  ∨ ∃ pre msg post pat,
      msgs = pre ++ msg :: post ∧ Forall (no_match m) pre ∧ m msg = Some pat.
Proof.
  induction msgs as [|x msgs IH]; [by left|].
  destruct (m x) as [pat|] eqn:Hx.
  - right. by exists [], x, msgs, pat.
  - destruct IH as [Hall|(pre & msg & post & pat & -> & Hpre & Hmsg)].
    + left. by constructor.
    + right. exists (x :: pre), msg, post, pat. split_and!; [done| |done].
      by constructor.
Qed.

Lemma after_inv {A} (tr0 tr : list effect) (r : outcome A * Process * list effect)
    (o : outcome A) (q : Process) :
  after tr0 r = (o, q, tr) → ∃ tr1, r = (o, q, tr1) ∧ tr = tr0 ++ tr1.
Proof.
  destruct r as [[o' q'] tr1]. unfold after; simpl. intros [= -> -> <-]. eauto.
Qed.

(** A suspended scan that is still suspended when the events are used up
    has met no match: everything that was queued meanwhile is in the scan
    buffer. *)
Lemma wait_inbox_pending (m : Matcher) (evs : list event) :
  ∀ (timer : option nat) (p p' : Process) (tr : list effect),
  inbox_ p = [] →
  wait_inbox m timer p evs = (Pending, p', tr) →
  Forall (no_match m) (queued p (arrivals evs))
  ∧ p' = set_queues p [] (__tmp_inbox p ++ queued p (arrivals evs))
  ∧ tr = map MatchCall (queued p (arrivals evs)).
Proof.
  induction evs as [|ev evs IH]; intros timer p p' tr Hin Hrun.
  - simpl in Hrun. injection Hrun as <- <-.
    assert (Hq : queued p (arrivals []) = [])
      by (unfold queued; by destruct (passive_ p)).
    rewrite Hq, app_nil_r. split_and!; [done| |done].
    by rewrite <- Hin, set_queues_same.
  - destruct ev as [msgs|].
    + change (arrivals (Delivered msgs :: evs)) with (msgs ++ arrivals evs).
      rewrite queued_app. cbn [wait_inbox] in Hrun.
      rewrite deliver_all_queued, Hin in Hrun.
      cbn [inbox_ __tmp_inbox set_queues app] in Hrun.
      destruct (first_match_split m (queued p msgs))
        as [Hall|(pre & msg & post & pat & Heq & Hpre & Hmsg)].
      * rewrite receive_loop_exhausted in Hrun by done.
        apply after_inv in Hrun as (tr1 & Hrun & ->).
        apply IH in Hrun as (Hno & -> & ->); [|done].
        rewrite ?queued_set_queues in Hno |- *.
        split_and!; [by apply Forall_app| |by rewrite map_app].
        unfold set_queues; simpl. by rewrite <- app_assoc.
      * rewrite Heq, (receive_loop_matched m _ pre post _ msg pat) in Hrun by done.
        done.
    + change (arrivals (Tick :: evs)) with (arrivals evs).
      cbn [wait_inbox] in Hrun. destruct timer as [[|k]|]; [done|..].
      * by apply IH in Hrun.
      * by apply IH in Hrun.
Qed.

(** A [receive] that is still waiting when the events are used up has
    lost nothing and skipped everything: no message that reached the scan
    matches, the inbox is empty and the scan buffer holds, in arrival order,
    the messages that were queued at the call followed by those queued
    since, each tested exactly once. *)
Theorem pending_receive_holds_everything
    (match_ : option Matcher) (timeout : option nat) (cb : py_callback)
    (p p' : Process) (evs : list event) (tr : list effect) :
  __tmp_inbox p = [] →
  receive match_ timeout cb p evs = (Pending, p', tr) →
  let seen := inbox_ p ++ queued p (arrivals evs) in
  Forall (no_match (chosen_match match_ p)) seen
  ∧ p' = set_queues p [] seen
  ∧ tr = map MatchCall seen.
Proof.
  intros Htmp Hrun seen.
  assert (Hrecv : ∃ timer, _receive match_ timer p evs = (Pending, p', tr)).
  { unfold receive in Hrun. destruct timeout as [[|k]|]; [by eexists..| |by eexists].
    exists (Some k). destruct (_receive match_ (Some k) p evs) as [[o q] t].
    destruct o as [v|e|]; [done| |done].
    destruct e; try done. by destruct cb. }
  destruct Hrecv as [timer Hrecv]. unfold _receive in Hrecv.
  rewrite Htmp in Hrecv. set (m := chosen_match match_ p) in *.
  destruct (first_match_split m (inbox_ p))
    as [Hall|(pre & msg & post & pat & Heq & Hpre & Hmsg)].
  - rewrite receive_loop_exhausted in Hrecv by done.
    apply after_inv in Hrecv as (tr1 & Hrecv & ->).
    apply wait_inbox_pending in Hrecv as (Hno & -> & ->); [|done].
    rewrite ?queued_set_queues in Hno |- *. unfold seen.
    split_and!; [by apply Forall_app|done|by rewrite map_app].
  - rewrite Heq, (receive_loop_matched m p pre post [] msg pat) in Hrecv by done.
    done.
Qed.

(** A suspended scan returns only for the first queued arrival that
    matches. *)
Lemma wait_inbox_returned (m : Matcher) (evs : list event) :
  ∀ (timer : option nat) (p p' : Process) (v : term) (tr : list effect),
  inbox_ p = [] →
  wait_inbox m timer p evs = (Returned v, p', tr) →
  ∃ consumed rest pre msg post pat,
    evs = consumed ++ rest
    ∧ queued p (arrivals consumed) = pre ++ msg :: post
    ∧ Forall (no_match m) pre ∧ m msg = Some pat
    ∧ v = run pat msg
    ∧ p' = set_queues p (__tmp_inbox p ++ pre ++ post) []
    ∧ tr = map MatchCall (pre ++ [msg]).
Proof.
  induction evs as [|ev evs IH]; intros timer p p' v tr Hin Hrun; [done|].
  destruct ev as [msgs|].
  - cbn [wait_inbox] in Hrun. rewrite deliver_all_queued, Hin in Hrun.
    cbn [inbox_ __tmp_inbox set_queues app] in Hrun.
    destruct (first_match_split m (queued p msgs))
      as [Hall|(pre & msg & post & pat & Heq & Hpre & Hmsg)].
    + rewrite receive_loop_exhausted in Hrun by done.
      apply after_inv in Hrun as (tr1 & Hrun & ->).
      apply IH in Hrun
        as (consumed & rest & pre & msg & post & pat
            & -> & Hq & Hpre & Hmsg & -> & -> & ->); [|done].
      rewrite ?queued_set_queues in Hq.
      exists (Delivered msgs :: consumed), rest, (queued p msgs ++ pre), msg, post, pat.
      change (arrivals (Delivered msgs :: consumed)) with (msgs ++ arrivals consumed).
      rewrite queued_app, Hq.
      split_and!; [done|by rewrite <- app_assoc|by apply Forall_app|done|done| |].
      * unfold set_queues; simpl. by rewrite <- !app_assoc.
      * by rewrite !map_app, <- app_assoc.
    + rewrite Heq, (receive_loop_matched m _ pre post _ msg pat) in Hrun by done.
      injection Hrun as <- <- <-.
      exists [Delivered msgs], evs, pre, msg, post, pat.
      change (arrivals [Delivered msgs]) with (msgs ++ []).
      rewrite app_nil_r. by split_and!.
  - cbn [wait_inbox] in Hrun.
    assert (Hrun' : ∃ timer', wait_inbox m timer' p evs = (Returned v, p', tr)).
    { destruct timer as [[|k]|]; [done|by eexists..]. }
    destruct Hrun' as [timer' Hrun'].
    apply IH in Hrun'
      as (consumed & rest & pre & msg & post & pat
          & -> & Hq & Hpre & Hmsg & -> & -> & ->); [|done].
    by exists (Tick :: consumed), rest, pre, msg, post, pat.
Qed.

(** A [receive] without a deadline returns only by consuming the first
    message, in arrival order, that the matcher accepts: the messages queued
    at the call followed by those of the events consumed split as
    [pre ++ msg :: post] with nothing in [pre] matching, the value is the
    run step on [msg], the inbox is left with [pre ++ post], the scan buffer
    is empty, and the matcher was called once on each message of [pre] and
    on [msg], on nothing else. *)
Theorem returned_receive_took_first_match
    (match_ : option Matcher) (cb : py_callback)
    (p p' : Process) (evs : list event) (v : term) (tr : list effect) :
  __tmp_inbox p = [] →
  receive match_ None cb p evs = (Returned v, p', tr) →
  ∃ consumed rest pre msg post pat,
    evs = consumed ++ rest
    ∧ inbox_ p ++ queued p (arrivals consumed) = pre ++ msg :: post
    ∧ Forall (no_match (chosen_match match_ p)) pre
    ∧ chosen_match match_ p msg = Some pat
    ∧ v = run pat msg
    ∧ p' = set_queues p (pre ++ post) []
    ∧ tr = map MatchCall (pre ++ [msg]).
Proof.
  intros Htmp Hrun. unfold receive, _receive in Hrun.
  rewrite Htmp in Hrun. set (m := chosen_match match_ p) in *.
  destruct (first_match_split m (inbox_ p))
    as [Hall|(pre & msg & post & pat & Heq & Hpre & Hmsg)].
  - rewrite receive_loop_exhausted in Hrun by done.
    apply after_inv in Hrun as (tr1 & Hrun & ->).
    apply wait_inbox_returned in Hrun
      as (consumed & rest & pre & msg & post & pat
          & -> & Hq & Hpre & Hmsg & -> & -> & ->); [|done].
    rewrite ?queued_set_queues in Hq.
    exists consumed, rest, (inbox_ p ++ pre), msg, post, pat.
    rewrite Hq.
    split_and!; [done|by rewrite <- app_assoc|by apply Forall_app|done|done| |].
    + unfold set_queues; simpl. by rewrite <- !app_assoc.
    + by rewrite !map_app, <- app_assoc.
  - rewrite Heq, (receive_loop_matched m p pre post [] msg pat) in Hrun by done.
    injection Hrun as <- <- <-.
    exists [], evs, pre, msg, post, pat.
    assert (Hq : queued p (arrivals []) = [])
      by (unfold queued; by destruct (passive_ p)).
    rewrite Hq, app_nil_r. by split_and!.
Qed.

(** * Further properties of the registries *)

Lemma set_links_same (p : Process) : set_links (_links p) p = p.
Proof. by destruct p. Qed.

Lemma set_monitors_same (p : Process) : set_monitors (_monitors p) p = p.
Proof. by destruct p. Qed.

(** Linking a peer and unlinking it again leaves the link set without that
    peer: the process is back as it was when the peer was not linked before.
    Linking is idempotent, unlinking is not: the second [remove_link] of the
    same peer raises [KeyError]. *)
Theorem link_unlink_round_trip (pid : Pid) (p : Process) :
  (add_link pid >> remove_link pid) p =
    (Returned (), set_links (_links p ∖ {[pid]}) p, [])
  ∧ (pid ∉ _links p → (add_link pid >> remove_link pid) p = (Returned (), p, []))
  ∧ (add_link pid >> add_link pid) p = add_link pid p
  ∧ (add_link pid >> remove_link pid >> remove_link pid) p =
      (Raised (KeyError pid), set_links (_links p ∖ {[pid]}) p, []).
Proof.
  clear Pid_str.
  assert (Hin : pid ∈ {[pid]} ∪ _links p)
    by (by apply elem_of_union_l, elem_of_singleton).
  assert (Hout : ({[pid]} ∪ _links p) ∖ {[pid]} = _links p ∖ {[pid]}).
  { apply set_eq. intros x.
    rewrite !elem_of_difference, elem_of_union, elem_of_singleton. tauto. }
  assert (Hgone : pid ∉ _links p ∖ {[pid]}).
  { rewrite elem_of_difference, elem_of_singleton. tauto. }
  assert (Hrun : (add_link pid >> remove_link pid) p =
                 (Returned (), set_links (_links p ∖ {[pid]}) p, [])).
  { unfold bind, add_link, modify, remove_link. cbn [_links set_links].
    destruct (decide (pid ∈ {[pid]} ∪ _links p)); [|done].
    unfold after, set_links; simpl. by rewrite Hout. }
  split_and!.
  - done.
  - intros Hfresh. rewrite Hrun.
    replace (_links p ∖ {[pid]}) with (_links p); [by rewrite set_links_same|].
    apply set_eq. intros x. rewrite elem_of_difference, elem_of_singleton.
    split; [|tauto]. intros Hx. split; [done|]. by intros ->.
  - unfold bind, add_link, modify, after, set_links; simpl.
    replace ({[pid]} ∪ ({[pid]} ∪ _links p)) with ({[pid]} ∪ _links p); [done|].
    apply set_eq. intros x. rewrite !elem_of_union. tauto.
  - unfold bind at 1. unfold add_link at 1, modify at 1.
    unfold bind, remove_link. cbn [_links set_links].
    destruct (decide (pid ∈ {[pid]} ∪ _links p)); [|done].
    unfold modify. cbn [_links set_links]. rewrite Hout.
    destruct (decide (pid ∈ _links p ∖ {[pid]})); [done|].
    unfold after, raise, set_links; simpl. done.
Qed.

(** [add_monitor] stores the target under the reference and touches no other
    reference.  Monitoring under a fresh reference and demonitoring with the
    same target gives the process back; registering another target under the
    same reference overwrites, and a demonitor that still names the first
    target then finds a different entry and removes nothing. *)
Theorem monitor_demonitor_round_trip (pid : Pid) (ref : Reference) (p : Process) :
  _monitors (add_monitor pid ref p).1.2 !! ref = Some pid
  ∧ (∀ ref', ref' ≠ ref →
       _monitors (add_monitor pid ref p).1.2 !! ref' = _monitors p !! ref')
  ∧ (_monitors p !! ref = None →
       (add_monitor pid ref >> remove_monitor pid ref) p = (Returned (), p, []))
  ∧ (∀ pid', pid' ≠ pid →
       (add_monitor pid ref >> add_monitor pid' ref >> remove_monitor pid ref) p =
         (Returned (), set_monitors (<[ref := pid']> (_monitors p)) p, [])).
Proof.
  split_and!.
  - cbn. apply lookup_insert_eq.
  - intros ref' Hne. cbn. by apply lookup_insert_ne.
  - intros Hfresh. unfold add_monitor, remove_monitor, bind, modify, reads.
    cbn [_monitors set_monitors]. rewrite lookup_insert_eq.
    destruct (decide (Some pid = Some pid)); [|done].
    unfold after, set_monitors; simpl.
    rewrite delete_insert_id by done. by destruct p.
  - intros pid' Hne. unfold add_monitor, remove_monitor, bind, modify, reads.
    cbn [_monitors set_monitors fst snd after].
    rewrite insert_insert_eq, lookup_insert_eq.
    destruct (decide (Some pid' = Some pid)) as [[= ?]|_]; [done|].
    by unfold after, ret.
Qed.

(** ** Who is notified *)

Lemma monitor_notification_inv (p : Process) (reason reason' : term)
    (sender owner self_pid : Pid) (ref : Reference) :
  SendNowait sender owner (down_msg ref self_pid reason')
    ∈ monitor_notifications p reason →
  _monitored_by p !! ref = Some owner.
Proof.
  unfold monitor_notifications. intros Hin.
  apply list_elem_of_fmap in Hin as ([ref' owner'] & Heq & Hin).
  injection Heq as -> -> -> -> ->. by apply elem_of_map_to_list.
Qed.

Lemma link_notification_inv (p : Process) (reason reason' : term)
    (sender link : Pid) :
  SendLinkExitNotification sender link reason' ∈ link_notifications p reason →
  link ∈ _links p.
Proof.
  unfold link_notifications. intros Hin.
  apply list_elem_of_fmap in Hin as (link' & Heq & Hin).
  injection Heq as -> -> ->. by apply elem_of_elements.
Qed.

(** One pass of [_trigger_monitors] makes exactly one [send_nowait] call per
    entry of [_monitored_by]: as many calls as entries, no call twice, and a
    call is made if and only if it carries the DOWN tuple of an entry to the
    owner of that entry.  The process is not modified. *)
Theorem trigger_monitors_one_DOWN_per_entry (reason : term) (p : Process) :
  let r := _trigger_monitors reason p in
  r.1 = (Returned (), p)
  ∧ length r.2 = size (_monitored_by p)
  ∧ NoDup r.2
  ∧ ∀ e, e ∈ r.2 ↔
      ∃ ref owner, _monitored_by p !! ref = Some owner
        ∧ e = SendNowait (pid_ p) owner (down_msg ref (pid_ p) reason).
Proof.
  rewrite _trigger_monitors_run. cbn [fst snd]. split_and!.
  - done.
  - unfold monitor_notifications. by rewrite length_map, length_map_to_list.
  - apply monitor_notifications_NoDup.
  - intros e. split.
    + unfold monitor_notifications. intros Hin.
      apply list_elem_of_fmap in Hin as ([ref owner] & -> & Hin).
      exists ref, owner. split; [by apply elem_of_map_to_list|done].
    + intros (ref & owner & Hm & ->). by apply monitor_notified.
Qed.

(** One pass of [_trigger_links] with an atom other than [normal] makes
    exactly one [send_link_exit_notification] call per linked peer, all of
    them with the same reason: [killed] for [kill], the given atom
    otherwise.  The process is not modified. *)
Theorem trigger_links_one_exit_per_peer (name : string) (p : Process) :
  name ≠ "normal" →
  let sent := if String.eqb name "kill" then PyAtom "killed" else PyAtom name in
  let r := _trigger_links (PyAtom name) p in
  r.1 = (Returned (), p)
  ∧ length r.2 = size (_links p)
  ∧ NoDup r.2
  ∧ ∀ e, e ∈ r.2 ↔
      ∃ link, link ∈ _links p
        ∧ e = SendLinkExitNotification (pid_ p) link sent.
Proof.
  intros Hname sent r. unfold r. rewrite _trigger_links_run by done.
  fold sent. cbn [fst snd]. split_and!.
  - done.
  - unfold link_notifications. by rewrite length_map.
  - apply link_notifications_NoDup.
  - intros e. split.
    + unfold link_notifications. intros Hin.
      apply list_elem_of_fmap in Hin as (link & -> & Hin).
      exists link. split; [by apply elem_of_elements|done].
    + intros (link & Hl & ->). by apply link_notified.
Qed.

Lemma bind_returned {A B} (c : M A) (k : A → M B) (p p1 : Process)
    (a : A) (tr1 : list effect) :
  c p = (Returned a, p1, tr1) → bind c k p = after tr1 (k a p1).
Proof. intros Hc. unfold bind. by rewrite Hc. Qed.

Lemma bind_raised {A B} (c : M A) (k : A → M B) (p p1 : Process)
    (e : exn) (tr1 : list effect) :
  c p = (Raised e, p1, tr1) → bind c k p = (Raised e, p1, tr1).
Proof. intros Hc. unfold bind. by rewrite Hc. Qed.

Lemma remove_monitored_by_match (owner : Pid) (ref : Reference) (p : Process) :
  _monitored_by p !! ref = Some owner →
  remove_monitored_by owner ref p =
    (Returned (), set_monitored_by (delete ref (_monitored_by p)) p, []).
Proof.
  intros Hm. unfold remove_monitored_by, bind, reads.
  by destruct (decide (_monitored_by p !! ref = Some owner)).
Qed.

Lemma remove_link_present (pid : Pid) (p : Process) :
  pid ∈ _links p →
  remove_link pid p = (Returned (), set_links (_links p ∖ {[pid]}) p, []).
Proof.
  intros Hl. unfold remove_link. by destruct (decide (pid ∈ _links p)).
Qed.

(** After [remove_monitored_by(owner, ref)] with the stored owner, a pass
    of [_trigger_monitors] sends nobody a DOWN tuple for [ref], and still
    sends every other entry its own. *)
Theorem demonitored_owner_gets_no_DOWN
    (owner : Pid) (ref : Reference) (reason : term) (p : Process) :
  _monitored_by p !! ref = Some owner →
  let r := (remove_monitored_by owner ref >> _trigger_monitors reason) p in
  r.1.1 = Returned ()
  ∧ (∀ sender o self_pid reason',
       SendNowait sender o (down_msg ref self_pid reason') ∉ r.2)
  ∧ (∀ ref' o, ref' ≠ ref → _monitored_by p !! ref' = Some o →
       SendNowait (pid_ p) o (down_msg ref' (pid_ p) reason) ∈ r.2).
Proof.
  intros Hm r. unfold r.
  rewrite (bind_returned _ _ _ _ _ _ (remove_monitored_by_match owner ref p Hm)).
  rewrite _trigger_monitors_run. unfold after; cbn [fst snd app].
  split_and!; [done|..].
  - intros sender o self_pid reason' Hin.
    apply monitor_notification_inv in Hin. cbn in Hin.
    by rewrite lookup_delete_eq in Hin.
  - intros ref' o Hne Hm'.
    apply (monitor_notified (set_monitored_by _ p)). cbn.
    by rewrite lookup_delete_ne.
Qed.

(** [add_monitored_by(owner, ref)] makes [owner] the one who is sent the
    DOWN tuple of [ref]: an owner stored under [ref] before is overwritten
    and is no longer sent it. *)
Theorem monitored_by_collision_overwrites
    (owner : Pid) (ref : Reference) (reason : term) (p : Process) :
  let r := (add_monitored_by owner ref >> _trigger_monitors reason) p in
  SendNowait (pid_ p) owner (down_msg ref (pid_ p) reason) ∈ r.2
  ∧ ∀ sender o self_pid reason', o ≠ owner →
      SendNowait sender o (down_msg ref self_pid reason') ∉ r.2.
Proof.
  intros r. unfold r.
  rewrite (bind_returned _ _ p (set_monitored_by (<[ref := owner]> (_monitored_by p)) p)
             () []) by done.
  rewrite _trigger_monitors_run. unfold after; cbn [fst snd app].
  split.
  - apply (monitor_notified (set_monitored_by _ p)). cbn.
    apply lookup_insert_eq.
  - intros sender o self_pid reason' Hne Hin.
    apply monitor_notification_inv in Hin. cbn in Hin.
    rewrite lookup_insert_eq in Hin. congruence.
Qed.

(** A peer that was unlinked is sent no link-exit notification by a later
    pass of [_trigger_links], whatever the reason. *)
Theorem unlinked_peer_gets_no_exit (pid : Pid) (reason : term) (p : Process) :
  pid ∈ _links p →
  let r := (remove_link pid >> _trigger_links reason) p in
  ∀ sender reason', SendLinkExitNotification sender pid reason' ∉ r.2.
Proof.
  clear Pid_str. intros Hl r sender reason'. unfold r.
  rewrite (bind_returned _ _ _ _ _ _ (remove_link_present pid p Hl)).
  set (p1 := set_links (_links p ∖ {[pid]}) p).
  destruct reason as [|name| | | | |];
    try (rewrite _trigger_links_not_atom by done; cbn; apply not_elem_of_nil).
  destruct (decide (name = "normal")) as [->|Hname].
  - rewrite _trigger_links_normal. cbn. apply not_elem_of_nil.
  - rewrite _trigger_links_run by done. unfold after; cbn [fst snd app].
    intros Hin. apply link_notification_inv in Hin. cbn in Hin.
    rewrite elem_of_difference, elem_of_singleton in Hin. tauto.
Qed.

(** * Further properties of the exit protocol *)

Lemma _on_exit_signal_normal (p : Process) :
  passive_ p = false →
  _on_exit_signal (PyAtom "normal") p =
    (Returned (), set_is_exiting true p,
     TaskCancel :: monitor_notifications p (PyAtom "normal")
       ++ [OnExitProcess (pid_ p) (PyAtom "normal")]).
Proof.
  intros Hact. unfold _on_exit_signal, bind at 1, run_task_cancel.
  rewrite Hact. unfold emit at 1, bind at 1, modify.
  unfold bind at 1. rewrite _trigger_monitors_run.
  unfold bind at 1. rewrite _trigger_links_normal.
  unfold bind, reads, emit, after. simpl. reflexivity.
Qed.

(** The notifications one run of the exit handler makes for an atom. *)
Lemma _on_exit_signal_any_atom (name : string) (p : Process) :
  passive_ p = false →
  ∃ tr, _on_exit_signal (PyAtom name) p = (Returned (), set_is_exiting true p, tr)
        ∧ exit_cycles tr = 1
        ∧ ∀ b, _on_exit_signal (PyAtom name) (set_is_exiting b p) =
                 (Returned (), set_is_exiting true p, tr).
Proof.
  intros Hact. destruct (decide (name = "normal")) as [->|Hname].
  - eexists. split; [by apply _on_exit_signal_normal|]. split.
    + change (TaskCancel :: ?l) with ([TaskCancel] ++ l).
      rewrite !exit_cycles_app. by rewrite exit_cycles_monitor_notifications.
    + intros b. by rewrite (_on_exit_signal_normal (set_is_exiting b p)).
  - eexists. split; [by apply _on_exit_signal_atom|]. split.
    + change (TaskCancel :: ?l) with ([TaskCancel] ++ l).
      rewrite !exit_cycles_app.
      by rewrite exit_cycles_monitor_notifications, exit_cycles_link_notifications.
    + intros b. by rewrite (_on_exit_signal_atom name (set_is_exiting b p)).
Qed.

(** The exit handler given no reason behaves as for [Atom('normal')].  Given
    an atom other than [normal] and [kill], it passes that atom unchanged
    to the monitor owners, to the linked peers and to the registry, and
    changes nothing of the process but [is_exiting_]. *)
Theorem exit_handler_forwards_reason (name : string) (p : Process) :
  passive_ p = false → name ≠ "normal" → name ≠ "kill" →
  _on_exit_signal PyNone p = _on_exit_signal (PyAtom "normal") p
  ∧ _on_exit_signal (PyAtom name) p =
      (Returned (), set_is_exiting true p,
       TaskCancel :: monitor_notifications p (PyAtom name)
         ++ link_notifications p (PyAtom name)
         ++ [OnExitProcess (pid_ p) (PyAtom name)]).
Proof.
  intros Hact Hnormal Hkill. split; [done|].
  rewrite _on_exit_signal_atom by done.
  by destruct (String.eqb_spec name "kill").
Qed.

(** A passive process has no loop task: its exit handler, and [destroy],
    fail with [AttributeError] at the first statement.  Nobody is notified,
    the registry is not told and [is_exiting_] is not set. *)
Theorem exit_handler_fails_on_passive (reason : term) (p : Process) :
  passive_ p = true →
  let err := AttributeError "'Process' object has no attribute '_run_task'" in
  _on_exit_signal reason p = (Raised err, p, [])
  ∧ destroy p = (Raised err, p, [])
  ∧ ∀ rest, handle_signals ((PyStr "exit", reason) :: rest) p =
      ((Raised err, p, []), rest).
Proof.
  intros Hpas err.
  assert (Hcancel : run_task_cancel p = (Raised err, p, []))
    by (unfold run_task_cancel; by rewrite Hpas).
  assert (Hexit : _on_exit_signal reason p = (Raised err, p, [])).
  { unfold _on_exit_signal. by rewrite (bind_raised _ _ _ _ _ _ Hcancel). }
  split_and!; [done|done|]. intros rest. cbn [handle_signals]. by rewrite Hexit.
Qed.

(** The exit handler does not look at [is_exiting_]: run a second time, on
    a process that is already exiting, it notifies every monitor owner and
    every linked peer again and tells the registry again. *)
Theorem exit_handler_has_no_reentry_guard (name : string) (p : Process) :
  passive_ p = false →
  let once := _on_exit_signal (PyAtom name) p in
  let twice := (_on_exit_signal (PyAtom name) >> _on_exit_signal (PyAtom name)) p in
  twice = (Returned (), set_is_exiting true p, once.2 ++ once.2)
  ∧ exit_cycles once.2 = 1
  ∧ exit_cycles twice.2 = 2.
Proof.
  intros Hact once twice.
  destruct (_on_exit_signal_any_atom name p Hact) as (tr & Hrun & Hcycles & Hagain).
  unfold twice, once. rewrite (bind_returned _ _ _ _ _ _ Hrun), Hrun.
  rewrite (Hagain true). unfold after; cbn [fst snd].
  split_and!; [done|done|]. by rewrite exit_cycles_app, Hcycles.
Qed.

(** [exit] only queues the request and asks the node for a wake-up: the
    process is not touched until [handle_signals] runs.  Requests are taken
    first in, first out, one per call; a request without a reason, taken by
    an active process, ends as a normal exit: every monitor owner is sent
    its DOWN tuple with [normal], no linked peer is notified, the registry
    is told. *)
Theorem exit_request_is_handled_later
    (reason : term) (signals : list (term * term)) (p : Process) :
  passive_ p = false →
  (exit reason signals p).2 = SignalWakeUp (pid_ p)
  ∧ (∀ first rest, signals = first :: rest →
       handle_signals (exit reason signals p).1 p =
         (_on_exit_signal first.2 p, rest ++ [(PyStr "exit", reason)]))
  ∧ handle_signals (exit reason [] p).1 p = (_on_exit_signal reason p, [])
  ∧ handle_signals (exit PyNone [] p).1 p =
      ((Returned (), set_is_exiting true p,
        TaskCancel :: monitor_notifications p (PyAtom "normal")
          ++ [OnExitProcess (pid_ p) (PyAtom "normal")]), []).
Proof.
  intros Hact. split_and!; [done| |done|].
  - intros [tag first] rest ->. done.
  - cbn [exit handle_signals fst app].
    change (_on_exit_signal PyNone p) with (_on_exit_signal (PyAtom "normal") p).
    by rewrite _on_exit_signal_normal.
Qed.

(** * Draining the inbox and the message loop *)

Lemma handle_inbox_loop_prefix (h : term → M unit) (ht : term → list effect)
    (pre : list term) :
  ∀ (rest : list term) (p : Process) (fuel n : nat),
  inbox_ p = pre ++ rest →
  Forall (λ msg, handler_returns h msg (ht msg)) pre →
  handle_inbox_loop h (length pre + fuel) n p =
    after (concat (map ht pre)) <$>
      handle_inbox_loop h fuel (n + length pre)
        (set_queues p rest (__tmp_inbox p)).
Proof.
  induction pre as [|msg pre IH]; intros rest p fuel n Hin Hh.
  - cbn [length Nat.add app map concat] in *.
    rewrite Nat.add_0_r, <- Hin, set_queues_same.
    destruct (handle_inbox_loop h fuel n p) as [r|]; [|done].
    cbn. by rewrite after_nil.
  - apply Forall_cons in Hh as [Hmsg Hpre].
    cbn [length Nat.add handle_inbox_loop]. rewrite Hin. cbn [app].
    rewrite Hmsg.
    rewrite (IH rest (set_queues p (pre ++ rest) (__tmp_inbox p)) fuel (n + 1))
      by done.
    cbn [inbox_ __tmp_inbox set_queues map concat length].
    replace (n + 1 + length pre) with (n + S (length pre)) by lia.
    destruct (handle_inbox_loop h fuel (n + S (length pre)) _) as [r|]; [|done].
    cbn. by rewrite after_after.
Qed.

(** [handle_inbox] with a handler that returns on every queued message and
    leaves the process alone: the handler is called once per message, first
    in first out, the count returned is the number of messages that were
    queued, the inbox is empty afterwards and the scan buffer is untouched.
    Any unrolling longer than the inbox is enough. *)
Theorem handle_inbox_drains_in_order
    (h : term → M unit) (ht : term → list effect) (p : Process) (fuel : nat) :
  Forall (λ msg, handler_returns h msg (ht msg)) (inbox_ p) →
  length (inbox_ p) < fuel →
  handle_inbox h fuel p =
    Some (Returned (length (inbox_ p)),
          set_queues p [] (__tmp_inbox p),
          concat (map ht (inbox_ p))).
Proof.
  intros Hh Hfuel. unfold handle_inbox.
  replace fuel with (length (inbox_ p) + S (fuel - S (length (inbox_ p)))) by lia.
  rewrite (handle_inbox_loop_prefix h ht (inbox_ p) [])
    by (by rewrite ?app_nil_r).
  cbn [handle_inbox_loop inbox_ set_queues fmap option_fmap option_map].
  unfold after; cbn. by rewrite app_nil_r.
Qed.

(** When the handler raises on a message, the messages before it have been
    handled, the message itself is gone from the inbox and the messages
    behind it are still queued.  [handle_inbox] lets the exception out,
    unless it is [QueueEmpty]: that one is taken for the empty inbox by the
    [except] clause, and the call returns the count, in which the message
    whose handler raised is included. *)
Theorem handle_inbox_handler_raises
    (h : term → M unit) (ht : term → list effect)
    (pre post : list term) (msg : term) (e : exn) (calls : list effect)
    (p : Process) (fuel : nat) :
  inbox_ p = pre ++ msg :: post →
  Forall (λ x, handler_returns h x (ht x)) pre →
  (∀ q, h msg q = (Raised e, q, calls)) →
  length pre < fuel →
  handle_inbox h fuel p =
    Some (match e with
          | QueueEmpty => Returned (length pre + 1)
          | _ => Raised e
          end,
          set_queues p post (__tmp_inbox p),
          concat (map ht pre) ++ calls).
Proof.
  intros Hin Hpre Hmsg Hfuel. unfold handle_inbox.
  replace fuel with (length pre + S (fuel - S (length pre))) by lia.
  rewrite (handle_inbox_loop_prefix h ht pre (msg :: post)) by done.
  cbn [handle_inbox_loop inbox_ __tmp_inbox set_queues]. rewrite Hmsg.
  by destruct e.
Qed.

Lemma receive_head (p : Process) (msg : term) (rest : list term) (pat : Pattern) :
  __tmp_inbox p = [] → inbox_ p = msg :: rest → _match p msg = Some pat →
  receive None None CbNone p [] =
    (Returned (run pat msg), set_queues p rest [], [MatchCall msg]).
Proof.
  intros Htmp Hin Hmsg. unfold receive, _receive, chosen_match.
  rewrite Htmp, Hin. by rewrite (receive_loop_matched _ p [] rest [] msg pat).
Qed.

Lemma receive_nothing_queued (p : Process) :
  __tmp_inbox p = [] → inbox_ p = [] →
  receive None None CbNone p [] = (Pending, set_queues p [] [], []).
Proof.
  intros Htmp Hin. unfold receive, _receive. by rewrite Htmp, Hin.
Qed.

(** The message loop of a process that is not exiting, whose matcher
    accepts each queued message and hands it back, with a handler that
    returns and leaves the process alone: the messages are taken first in
    first out, the handler is called on each truthy one, a falsy one ([None],
    an empty string, atom or tuple, the number zero) is consumed without
    the handler being called, and the loop then waits on the empty inbox. *)
Theorem process_loop_handles_in_order
    (h : term → M unit) (ht : term → list effect) (p : Process) (fuel : nat) :
  is_exiting_ p = false → __tmp_inbox p = [] →
  Forall (λ msg, (∃ pat, _match p msg = Some pat ∧ run pat msg = msg)
                 ∧ handler_returns h msg (ht msg)) (inbox_ p) →
  length (inbox_ p) < fuel →
  process_loop h fuel p =
    Some (Pending, set_queues p [] [],
          concat (map (λ msg, MatchCall msg :: if truthy msg then ht msg else [])
                      (inbox_ p))).
Proof.
  remember (inbox_ p) as inbox eqn:Hin. revert p fuel Hin.
  induction inbox as [|msg rest IH]; intros p fuel Hin Hrun Htmp Hall Hfuel.
  - destruct fuel as [|fuel]; [cbn in Hfuel; lia|].
    cbn [process_loop]. rewrite Hrun.
    by rewrite receive_nothing_queued.
  - destruct fuel as [|fuel]; [cbn in Hfuel; lia|].
    apply Forall_cons in Hall as [[(pat & Hm & Hback) Hh] Hall].
    cbn [process_loop]. rewrite Hrun.
    rewrite (receive_head p msg rest pat) by done. rewrite Hback.
    assert (Hnext : process_loop h fuel (set_queues p rest []) =
      Some (Pending, set_queues p [] [],
            concat (map (λ msg, MatchCall msg :: if truthy msg then ht msg else [])
                        rest))).
    { apply (IH (set_queues p rest [])); try done. cbn in Hfuel. lia. }
    cbn [map concat]. destruct (truthy msg).
    + rewrite Hh, Hnext. cbn. unfold after; cbn. by rewrite <- ?app_assoc.
    + rewrite Hnext. cbn. unfold after; cbn. by rewrite ?app_nil_r.
Qed.

(** What ends the message loop: it returns at once, leaving the inbox as it
    is, when the process is exiting; a scan buffer that is not empty makes
    its first [receive] raise [ValueError]; and an exception of the handler
    goes out of the loop, with the message consumed and the rest of the
    inbox still queued. *)
Theorem process_loop_stops
    (h : term → M unit) (p : Process) (fuel : nat) :
  (is_exiting_ p = true → process_loop h (S fuel) p = Some (Returned (), p, []))
  ∧ (is_exiting_ p = false → __tmp_inbox p ≠ [] →
       process_loop h (S fuel) p =
         Some (Raised (ValueError "temporary inbox not empty"), p, []))
  ∧ (∀ msg rest pat e q calls,
       is_exiting_ p = false → __tmp_inbox p = [] → inbox_ p = msg :: rest →
       _match p msg = Some pat → truthy (run pat msg) = true →
       h (run pat msg) (set_queues p rest []) = (Raised e, q, calls) →
       process_loop h (S fuel) p = Some (Raised e, q, MatchCall msg :: calls)).
Proof.
  split_and!.
  - intros Hex. cbn [process_loop]. by rewrite Hex.
  - intros Hrun Htmp. cbn [process_loop]. rewrite Hrun.
    unfold receive, _receive. by destruct (__tmp_inbox p).
  - intros msg rest pat e q calls Hrun Htmp Hin Hm Htruthy Hh.
    cbn [process_loop]. rewrite Hrun.
    rewrite (receive_head p msg rest pat) by done.
    by rewrite Htruthy, Hh.
Qed.

End process.

(** * A concrete node

    Identifiers and references are numbers; three atoms serve as
    messages. *)

Definition show_pid (n : nat) : string := "<pid>".

Definition msgA : @term nat nat := PyAtom "a".
Definition msgB : @term nat nat := PyAtom "b".
Definition msgC : @term nat nat := PyAtom "c".

(** A pattern that hands the message back, a matcher that accepts only
    the atom [c], and one that accepts nothing. *)
Definition hand_back : @Pattern nat nat := {| run := λ msg, msg |}.

Definition only_c : @Matcher nat nat := λ msg,
  match msg with
  | PyAtom name => if String.eqb name "c" then Some hand_back else None
  | _ => None
  end.

Definition never : @Matcher nat nat := λ _, None.

(** Process 1, active, monitored by process 2 under reference 7,
    monitoring process 4 under reference 8, linked to process 3. *)
Definition proc1 : @Process nat nat _ _ _ _ :=
  {| passive_ := false; pid_ := 1;
     inbox_ := []; __tmp_inbox := [];
     is_exiting_ := false;
     _monitored_by := {[7 := 2]}; _monitors := {[8 := 4]};
     _links := {[3]}; _match := default_Match |}.

(** ** Instances of the theorems *)

Lemma selective_receive_restores_skipped_abc :
  receive show_pid (Some only_c) None CbNone
      (deliver_all [msgA; msgB; msgC] proc1) [] =
    (Returned msgC, set_queues proc1 [msgA; msgB] [],
     [MatchCall msgA; MatchCall msgB; MatchCall msgC])
  ∧ receive show_pid (Some only_c) None CbNone
      (deliver_all [msgA; msgB] proc1) [Delivered [msgC; msgA]] =
    (Returned msgC, set_queues proc1 [msgA; msgB; msgA] [],
     [MatchCall msgA; MatchCall msgB; MatchCall msgC]).
Proof.
  apply (selective_receive_restores_skipped show_pid only_c hand_back
           msgA msgB msgC [msgA] None CbNone proc1 []); reflexivity.
Defined.

Lemma receive_rejects_leftover_scan_buffer_a :
  receive show_pid None (Some 2) CbNone (set_queues proc1 [msgB] [msgA]) [Tick] =
    (Raised (ValueError "temporary inbox not empty"),
     set_queues proc1 [msgB] [msgA], []).
Proof.
  apply (receive_rejects_leftover_scan_buffer show_pid None (Some 2) CbNone
           (set_queues proc1 [msgB] [msgA]) [Tick]).
  simpl. discriminate.
Defined.

Lemma receive_timeout_outcome_abc :
  receive show_pid (Some never) (Some 2) (CbCallable (λ _, msgC))
      (set_queues proc1 [msgA] []) ([Tick; Delivered [msgB]] ++ Tick :: []) =
    (Returned msgC, set_queues proc1 [] [msgA; msgB],
     [MatchCall msgA; MatchCall msgB])
  ∧ receive show_pid (Some never) (Some 1) CbNone
      (set_queues proc1 [msgA] []) ([] ++ Tick :: []) =
    (Raised (ProcessTimeoutError "receive in pyrlang.Process: <pid> timed out"),
     set_queues proc1 [] [msgA], [MatchCall msgA]).
Proof.
  split.
  - apply (receive_timeout_outcome show_pid (Some never) 1 (CbCallable (λ _, msgC))
             (set_queues proc1 [msgA] []) [Tick; Delivered [msgB]] []).
    + reflexivity.
    + simpl. repeat constructor.
    + reflexivity.
  - apply (receive_timeout_outcome show_pid (Some never) 0 CbNone
             (set_queues proc1 [msgA] []) [] []).
    + reflexivity.
    + simpl. repeat constructor.
    + reflexivity.
Defined.

Lemma scan_resumes_with_new_arrival_only_ab :
  receive show_pid (Some only_c) None CbNone (set_queues proc1 [msgA] [])
      [Delivered [msgB]] =
    (Pending, set_queues proc1 [] [msgA; msgB], [MatchCall msgA; MatchCall msgB])
  ∧ receive show_pid (Some only_c) None CbNone (set_queues proc1 [msgA] [])
      ([Delivered [msgB]] ++ [Delivered [msgC]]) =
    (Returned msgC, set_queues proc1 [msgA; msgB] [],
     [MatchCall msgA; MatchCall msgB; MatchCall msgC]).
Proof.
  apply (scan_resumes_with_new_arrival_only show_pid only_c None CbNone
           (set_queues proc1 [msgA] []) [Delivered [msgB]] msgC).
  - reflexivity.
  - reflexivity.
  - simpl. repeat constructor.
  - simpl. exact I.
Defined.

Lemma remove_monitor_only_on_match_proc1 :
  remove_monitor 4 8 proc1 =
    (Returned (), set_monitors (delete 8 (_monitors proc1)) proc1, [])
  ∧ remove_monitor 5 8 proc1 = (Returned (), proc1, [])
  ∧ remove_monitored_by 2 7 proc1 =
    (Returned (), set_monitored_by (delete 7 (_monitored_by proc1)) proc1, [])
  ∧ remove_monitored_by 2 9 proc1 = (Returned (), proc1, []).
Proof.
  split_and!.
  - apply (proj1 (remove_monitor_only_on_match 4 8 proc1)). reflexivity.
  - apply (proj1 (proj2 (remove_monitor_only_on_match 5 8 proc1))).
    vm_compute. discriminate.
  - apply (proj1 (proj2 (proj2 (remove_monitor_only_on_match 2 7 proc1)))).
    reflexivity.
  - apply (proj2 (proj2 (proj2 (remove_monitor_only_on_match 2 9 proc1)))).
    vm_compute. discriminate.
Defined.

Lemma remove_link_absent_raises_proc1 :
  remove_link 5 proc1 = (Raised (KeyError 5), proc1, [])
  ∧ remove_monitor 5 8 proc1 = (Returned (), proc1, []).
Proof.
  assert (Habsent : 5 ∉ _links proc1) by (vm_compute; intros Hin; inversion Hin).
  destruct (remove_link_absent_raises 5 proc1 Habsent) as [Hlink Hmon].
  split; [exact Hlink|]. apply Hmon. vm_compute. discriminate.
Defined.

Lemma normal_exit_reaches_monitors_not_links_proc1 :
  _on_exit_signal (PyAtom "normal") proc1 =
    (Returned (), set_is_exiting true proc1,
     [TaskCancel;
      SendNowait 1 2
        (PyTuple [PyAtom "DOWN"; PyRef 7; PyAtom "process"; PyPid 1; PyAtom "normal"]);
      OnExitProcess 1 (PyAtom "normal")]).
Proof.
  apply (proj2 (proj2 (proj2 (normal_exit_reaches_monitors_not_links proc1)))).
  reflexivity.
Defined.

Lemma kill_exit_reaches_links_as_killed_proc1 :
  _on_exit_signal (PyAtom "kill") proc1 =
    (Returned (), set_is_exiting true proc1,
     [TaskCancel;
      SendNowait 1 2
        (PyTuple [PyAtom "DOWN"; PyRef 7; PyAtom "process"; PyPid 1; PyAtom "kill"]);
      SendLinkExitNotification 1 3 (PyAtom "killed");
      OnExitProcess 1 (PyAtom "kill")]).
Proof.
  apply (proj2 (proj2 (proj2 (kill_exit_reaches_links_as_killed proc1)))).
  reflexivity.
Defined.

Lemma wrapper_fault_runs_exit_once_proc1 :
  run_wrapper (TaskRaised (RuntimeError "boom")) proc1 =
    (Returned (), set_is_exiting true proc1,
     [TaskCancel; TaskCancel;
      SendNowait 1 2
        (PyTuple [PyAtom "DOWN"; PyRef 7; PyAtom "process"; PyPid 1;
                  PyAtom "unhandledexception"]);
      SendLinkExitNotification 1 3 (PyAtom "unhandledexception");
      OnExitProcess 1 (PyAtom "unhandledexception")]).
Proof.
  apply (wrapper_fault_runs_exit_once (RuntimeError "boom") proc1).
  - reflexivity.
  - discriminate.
Defined.

(** ** Where the code departs from the specification *)

(** C2 (as stated, refuted): the loop task of [proc1], which is not
    exiting, is cancelled.  The wrapper raises the cancellation again: the
    task is not cancelled by the wrapper, no monitor owner and no linked
    peer is notified, the registry is not told, [is_exiting_] stays false.
    The exit protocol has run zero times. *)
Lemma unexpected_cancellation_runs_no_exit :
  is_exiting_ proc1 = false
  ∧ run_wrapper (TaskRaised CancelledError) proc1 =
      (Raised CancelledError, proc1, [])
  ∧ exit_cycles (run_wrapper (TaskRaised CancelledError) proc1).2 = 0.
Proof. split_and!; reflexivity. Qed.

(** C3 (as stated, refuted): [a] is in the inbox and nothing matches.  The
    scan tests [a], moves it to the scan buffer and suspends.  When [b]
    arrives, the only message tested from then on is [b]: the skipped [a]
    is not among the messages tested again. *)
Lemma skipped_message_is_not_retested :
  let p := set_queues proc1 [msgA] [] in
  let suspended := receive show_pid (Some never) None CbNone p [] in
  let resumed := receive show_pid (Some never) None CbNone p [Delivered [msgB]] in
  suspended = (Pending, set_queues proc1 [] [msgA], [MatchCall msgA])
  ∧ tests_since suspended.2 resumed.2 = [msgB]
  ∧ msgA ∉ tests_since suspended.2 resumed.2.
Proof.
  split_and!; [reflexivity..|].
  intros Hin. apply list_elem_of_singleton in Hin. discriminate.
Qed.

(** C4 (the defect): [a] is in the inbox, nothing matches and the deadline
    is one clock unit.  The receive ends with [ProcessTimeoutError] while
    [a] is still in the scan buffer and the inbox is empty; the next
    receive on that process, of whatever kind, raises [ValueError]. *)
Lemma timed_out_receive_keeps_scan_buffer :
  let p := set_queues proc1 [msgA] [] in
  let timed_out := receive show_pid (Some never) (Some 1) CbNone p [Tick] in
  timed_out =
    (Raised (ProcessTimeoutError "receive in pyrlang.Process: <pid> timed out"),
     set_queues proc1 [] [msgA], [MatchCall msgA])
  ∧ __tmp_inbox timed_out.1.2 = [msgA]
  ∧ inbox_ timed_out.1.2 = []
  ∧ receive show_pid None None CbNone timed_out.1.2 [Delivered [msgB]] =
      (Raised (ValueError "temporary inbox not empty"),
       set_queues proc1 [] [msgA], []).
Proof. split_and!; reflexivity. Qed.

(** Process 6, passive, monitored by process 2 under reference 7 and
    linked to process 3.  It has no loop task. *)
Definition proc6 : @Process nat nat _ _ _ _ :=
  {| passive_ := true; pid_ := 6;
     inbox_ := []; __tmp_inbox := [];
     is_exiting_ := false;
     _monitored_by := {[7 := 2]}; _monitors := ∅;
     _links := {[3]}; _match := default_Match |}.

(** C5 (the defect): the exit handler of the passive process 6 is run with
    reason [Atom('normal')].  [self._run_task.cancel()] raises
    [AttributeError] before the monitors are walked: process 2, which
    monitors it under reference 7, is sent no DOWN tuple, and nothing else
    of the exit protocol runs. *)
Lemma passive_normal_exit_sends_no_DOWN :
  passive_ proc6 = true
  ∧ _monitored_by proc6 !! 7 = Some 2
  ∧ _on_exit_signal (PyAtom "normal") proc6 =
      (Raised (AttributeError "'Process' object has no attribute '_run_task'"),
       proc6, [])
  ∧ SendNowait 6 2 (down_msg 7 6 (PyAtom "normal"))
      ∉ (_on_exit_signal (PyAtom "normal") proc6).2.
Proof.
  split_and!; [reflexivity..|].
  change (SendNowait 6 2 (down_msg 7 6 (PyAtom "normal")) ∉ []).
  apply not_elem_of_nil.
Qed.

(** C6 (the defect): the exit handler of the passive process 6 is run with
    reason [Atom('kill')].  [self._run_task.cancel()] raises
    [AttributeError] before the links are walked: process 3, which is
    linked to it, is sent no link-exit notification, with [killed] or with
    any other reason. *)
Lemma passive_kill_exit_sends_no_link_exit :
  passive_ proc6 = true
  ∧ 3 ∈ _links proc6
  ∧ _on_exit_signal (PyAtom "kill") proc6 =
      (Raised (AttributeError "'Process' object has no attribute '_run_task'"),
       proc6, [])
  ∧ ∀ reason, SendLinkExitNotification 6 3 reason
      ∉ (_on_exit_signal (PyAtom "kill") proc6).2.
Proof.
  split_and!; [reflexivity|by apply elem_of_singleton|reflexivity|].
  intros reason.
  change (SendLinkExitNotification 6 3 reason ∉ []).
  apply not_elem_of_nil.
Qed.

(** * Further instances on the concrete node *)

Notation "c '>>' k" := (bind c (λ _, k))
  (at level 100, right associativity).

(** Process 5, passive, with nobody attached. *)
Definition proc5 : @Process nat nat _ _ _ _ :=
  {| passive_ := true; pid_ := 5;
     inbox_ := []; __tmp_inbox := [];
     is_exiting_ := false;
     _monitored_by := ∅; _monitors := ∅;
     _links := ∅; _match := default_Match |}.

(** A handler that forwards every message to process 9, and one that
    refuses the atom [b]. *)
Definition forward_to_9 (msg : @term nat nat) : @M nat nat _ _ _ _ unit :=
  emit (SendNowait 1 9 msg).

Definition refuse_b (msg : @term nat nat) : @M nat nat _ _ _ _ unit :=
  match msg with
  | PyAtom "b" => raise (RuntimeError "b refused")
  | _ => emit (SendNowait 1 9 msg)
  end.

(** A handler that raises [QueueEmpty] on the atom [b]. *)
Definition empty_on_b (msg : @term nat nat) : @M nat nat _ _ _ _ unit :=
  match msg with
  | PyAtom "b" => raise QueueEmpty
  | _ => emit (SendNowait 1 9 msg)
  end.

Lemma cleanup_inbox_puts_skipped_first_a :
  _cleanup_inbox (set_queues proc1 [msgA] []) = set_queues proc1 [msgA] [].
Proof.
  apply (proj2 (proj2 (proj2
    (cleanup_inbox_puts_skipped_first (set_queues proc1 [msgA] []))))).
  reflexivity.
Defined.

Lemma deliver_message_appends_in_order_ab :
  (inbox_ (deliver_all [msgA; msgB] (set_queues proc1 [msgC] [])) = [msgC] ++ [msgA; msgB]
   ∧ __tmp_inbox (deliver_all [msgA; msgB] (set_queues proc1 [msgC] [])) = [])
  ∧ deliver_all [msgA; msgB] proc5 = proc5.
Proof.
  split.
  - apply (proj1 (deliver_message_appends_in_order [msgA; msgB]
                    (set_queues proc1 [msgC] []))).
    reflexivity.
  - apply (proj2 (deliver_message_appends_in_order [msgA; msgB] proc5)).
    reflexivity.
Defined.

Lemma receive_takes_first_match_acb :
  receive show_pid (Some only_c) (Some 3) CbNone
      (set_queues proc1 [msgA; msgC; msgB] []) [Tick] =
    (Returned msgC, set_queues proc1 [msgA; msgB] [],
     [MatchCall msgA; MatchCall msgC]).
Proof.
  apply (receive_takes_first_match show_pid (Some only_c) hand_back
           [msgA] [msgB] msgC (Some 3) CbNone
           (set_queues proc1 [msgA; msgC; msgB] []) [Tick]).
  - reflexivity.
  - reflexivity.
  - repeat constructor.
  - reflexivity.
Defined.

Lemma pending_receive_holds_everything_ab :
  Forall (no_match never) [msgA; msgB]
  ∧ set_queues proc1 [] [msgA; msgB] = set_queues proc1 [] [msgA; msgB]
  ∧ [MatchCall msgA; MatchCall msgB] = map MatchCall [msgA; msgB].
Proof.
  apply (pending_receive_holds_everything show_pid (Some never) (Some 4) CbNone
           (set_queues proc1 [msgA] []) (set_queues proc1 [] [msgA; msgB])
           [Tick; Delivered [msgB]] [MatchCall msgA; MatchCall msgB]).
  - reflexivity.
  - reflexivity.
Defined.

Lemma returned_receive_took_first_match_abc :
  ∃ consumed rest pre msg post pat,
    [Delivered [msgB; msgC; msgA]; Delivered [msgC]] = consumed ++ rest
    ∧ [msgA] ++ queued (set_queues proc1 [msgA] []) (arrivals consumed)
        = pre ++ msg :: post
    ∧ Forall (no_match only_c) pre
    ∧ only_c msg = Some pat
    ∧ msgC = run pat msg
    ∧ set_queues proc1 [msgA; msgB; msgA] [] =
        set_queues (set_queues proc1 [msgA] []) (pre ++ post) []
    ∧ [MatchCall msgA; MatchCall msgB; MatchCall msgC] = map MatchCall (pre ++ [msg]).
Proof.
  apply (returned_receive_took_first_match show_pid (Some only_c) CbNone
           (set_queues proc1 [msgA] []) (set_queues proc1 [msgA; msgB; msgA] [])
           [Delivered [msgB; msgC; msgA]; Delivered [msgC]] msgC
           [MatchCall msgA; MatchCall msgB; MatchCall msgC]).
  - reflexivity.
  - reflexivity.
Defined.

Lemma link_unlink_round_trip_proc1 :
  (add_link 5 >> remove_link 5) proc1 = (Returned (), proc1, []).
Proof.
  apply (proj1 (proj2 (link_unlink_round_trip 5 proc1))).
  vm_compute. intros Hin. inversion Hin.
Defined.

Lemma monitor_demonitor_round_trip_proc1 :
  (add_monitor 6 9 >> remove_monitor 6 9) proc1 = (Returned (), proc1, [])
  ∧ (add_monitor 6 9 >> add_monitor 4 9 >> remove_monitor 6 9) proc1 =
      (Returned (), set_monitors (<[9 := 4]> (_monitors proc1)) proc1, []).
Proof.
  split.
  - apply (proj1 (proj2 (proj2 (monitor_demonitor_round_trip 6 9 proc1)))).
    reflexivity.
  - apply (proj2 (proj2 (proj2 (monitor_demonitor_round_trip 6 9 proc1)))).
    discriminate.
Defined.

Lemma trigger_links_one_exit_per_peer_proc1 :
  (_trigger_links (PyAtom "kill") proc1).1 = (Returned (), proc1)
  ∧ length (_trigger_links (PyAtom "kill") proc1).2 = size (_links proc1)
  ∧ NoDup (_trigger_links (PyAtom "kill") proc1).2
  ∧ ∀ e, e ∈ (_trigger_links (PyAtom "kill") proc1).2 ↔
      ∃ link, link ∈ _links proc1
        ∧ e = SendLinkExitNotification (pid_ proc1) link (PyAtom "killed").
Proof.
  apply (trigger_links_one_exit_per_peer "kill" proc1). discriminate.
Defined.

Lemma demonitored_owner_gets_no_DOWN_proc1 :
  ((remove_monitored_by 2 7 >> _trigger_monitors (PyAtom "normal")) proc1).1.1
    = Returned ()
  ∧ (∀ sender o self_pid reason',
       SendNowait sender o (down_msg 7 self_pid reason')
         ∉ ((remove_monitored_by 2 7 >> _trigger_monitors (PyAtom "normal")) proc1).2)
  ∧ (∀ ref' o, ref' ≠ 7 → _monitored_by proc1 !! ref' = Some o →
       SendNowait (pid_ proc1) o (down_msg ref' (pid_ proc1) (PyAtom "normal"))
         ∈ ((remove_monitored_by 2 7 >> _trigger_monitors (PyAtom "normal")) proc1).2).
Proof.
  apply (demonitored_owner_gets_no_DOWN 2 7 (PyAtom "normal") proc1).
  reflexivity.
Defined.

Lemma monitored_by_collision_overwrites_proc1 :
  SendNowait 1 2 (down_msg 7 1 (PyAtom "normal"))
    ∉ ((add_monitored_by 6 7 >> _trigger_monitors (PyAtom "normal")) proc1).2.
Proof.
  apply (proj2 (monitored_by_collision_overwrites 6 7 (PyAtom "normal") proc1)).
  discriminate.
Defined.

Lemma unlinked_peer_gets_no_exit_proc1 :
  SendLinkExitNotification 1 3 (PyAtom "killed")
    ∉ ((remove_link 3 >> _trigger_links (PyAtom "kill")) proc1).2.
Proof.
  apply (unlinked_peer_gets_no_exit 3 (PyAtom "kill") proc1).
  by apply elem_of_singleton.
Defined.

Lemma exit_handler_forwards_reason_proc1 :
  _on_exit_signal PyNone proc1 = _on_exit_signal (PyAtom "normal") proc1
  ∧ _on_exit_signal (PyAtom "shutdown") proc1 =
      (Returned (), set_is_exiting true proc1,
       [TaskCancel;
        SendNowait 1 2
          (PyTuple [PyAtom "DOWN"; PyRef 7; PyAtom "process"; PyPid 1;
                    PyAtom "shutdown"]);
        SendLinkExitNotification 1 3 (PyAtom "shutdown");
        OnExitProcess 1 (PyAtom "shutdown")]).
Proof.
  apply (exit_handler_forwards_reason "shutdown" proc1).
  - reflexivity.
  - discriminate.
  - discriminate.
Defined.

Lemma exit_handler_fails_on_passive_proc5 :
  _on_exit_signal (PyAtom "kill") proc5 =
    (Raised (AttributeError "'Process' object has no attribute '_run_task'"),
     proc5, []).
Proof.
  apply (exit_handler_fails_on_passive (PyAtom "kill") proc5). reflexivity.
Defined.

Lemma exit_handler_has_no_reentry_guard_proc1 :
  exit_cycles
    ((_on_exit_signal (PyAtom "shutdown") >> _on_exit_signal (PyAtom "shutdown"))
       proc1).2 = 2.
Proof.
  apply (exit_handler_has_no_reentry_guard "shutdown" proc1). reflexivity.
Defined.

Lemma exit_request_is_handled_later_proc1 :
  handle_signals (exit (PyAtom "kill") [(PyStr "exit", PyNone)] proc1).1 proc1 =
    (_on_exit_signal PyNone proc1, [(PyStr "exit", PyAtom "kill")]).
Proof.
  apply (proj1 (proj2 (exit_request_is_handled_later (PyAtom "kill")
                         [(PyStr "exit", PyNone)] proc1 eq_refl))
           (PyStr "exit", PyNone) []).
  reflexivity.
Defined.

Lemma handle_inbox_drains_in_order_ab :
  handle_inbox forward_to_9 3 (set_queues proc5 [msgA; msgB] [msgC]) =
    Some (Returned 2, set_queues proc5 [] [msgC],
          [SendNowait 1 9 msgA; SendNowait 1 9 msgB]).
Proof.
  apply (handle_inbox_drains_in_order forward_to_9 (λ msg, [SendNowait 1 9 msg])
           (set_queues proc5 [msgA; msgB] [msgC]) 3).
  - repeat constructor.
  - simpl. lia.
Defined.

Lemma handle_inbox_handler_raises_abc :
  handle_inbox refuse_b 2 (set_queues proc5 [msgA; msgB; msgC] []) =
    Some (Raised (RuntimeError "b refused"), set_queues proc5 [msgC] [],
          [SendNowait 1 9 msgA])
  ∧ handle_inbox empty_on_b 2 (set_queues proc5 [msgA; msgB; msgC] []) =
    Some (Returned 2, set_queues proc5 [msgC] [], [SendNowait 1 9 msgA]).
Proof.
  split.
  - apply (handle_inbox_handler_raises refuse_b (λ msg, [SendNowait 1 9 msg])
             [msgA] [msgC] msgB (RuntimeError "b refused") []
             (set_queues proc5 [msgA; msgB; msgC] []) 2).
    + reflexivity.
    + repeat constructor.
    + reflexivity.
    + simpl. lia.
  - apply (handle_inbox_handler_raises empty_on_b (λ msg, [SendNowait 1 9 msg])
             [msgA] [msgC] msgB QueueEmpty []
             (set_queues proc5 [msgA; msgB; msgC] []) 2).
    + reflexivity.
    + repeat constructor.
    + reflexivity.
    + simpl. lia.
Defined.

Lemma process_loop_handles_in_order_a0b :
  process_loop show_pid forward_to_9 4 (set_queues proc1 [msgA; PyInt 0; msgB] []) =
    Some (Pending, set_queues proc1 [] [],
          [MatchCall msgA; SendNowait 1 9 msgA;
           MatchCall (PyInt 0);
           MatchCall msgB; SendNowait 1 9 msgB]).
Proof.
  apply (process_loop_handles_in_order show_pid forward_to_9
           (λ msg, [SendNowait 1 9 msg])
           (set_queues proc1 [msgA; PyInt 0; msgB] []) 4).
  - reflexivity.
  - reflexivity.
  - repeat constructor; by eexists.
  - simpl. lia.
Defined.

Lemma process_loop_stops_on_leftover_scan_buffer :
  process_loop show_pid forward_to_9 1 (set_queues proc1 [msgB] [msgA]) =
    Some (Raised (ValueError "temporary inbox not empty"),
          set_queues proc1 [msgB] [msgA], []).
Proof.
  apply (proj1 (proj2 (process_loop_stops show_pid forward_to_9
                         (set_queues proc1 [msgB] [msgA]) 0))).
  - reflexivity.
  - discriminate.
Defined.
